(** * api2go: unmarshalling a decoded JSONAPI document into a slice of structs

    A shallow embedding of [unmarshal.go] (functions [Unmarshal],
    [unmarshalInto] and [unmarshalLinks]) together with the properties of
    the merge-by-identifier engine.

    Go's [reflect] values are modelled by what they denote:
    - a decoded document value ([interface{}]) is a [goval];
    - a struct value is a finite map from field names to [goval]s, its type
      a [TStruct] carrying the declared fields;
    - a slice of structs is a header (pointer, length, capacity) into a
      flat memory of struct cells, so that in-place updates through
      [sliceVal.Index(i)], the sharing of a backing array by [reflect.Append]
      and the final [sliceVal.Set(val)] are all visible;
    - a Go map that the code iterates with [range] is an association list
      whose order is the iteration order of that run: a statement over all
      lists covers every order the runtime may choose.

    Scope of the model: struct fields are exported and found by their own
    name (no embedded structs), field types are the built-in types below
    (one 64-bit signed integer kind, no named non-struct types), and the
    document holds the dynamic types a JSON decoder produces. *)

From Stdlib Require Import ZArith Ascii String DecimalString.
From stdpp Require Import base option list strings gmap fin_maps.

Open Scope string_scope.
Open Scope list_scope.
Open Scope nat_scope.
Set Warnings "-register-all".

(** ** Types and values *)

Inductive gotype : Type :=
| TBool
| TInt
| TFloat64
| TString
| TInterface
| TSlice (elem : gotype)
| TMap (key elem : gotype)
| TPtr (elem : gotype)
| TStruct (name : string) (fields : list (string * gotype)).

Inductive kind : Type :=
| KInvalid | KBool | KInt | KFloat64 | KString | KInterface
| KSlice | KMap | KPtr | KStruct.

Definition Kind (t : gotype) : kind :=
  match t with
  | TBool => KBool
  | TInt => KInt
  | TFloat64 => KFloat64
  | TString => KString
  | TInterface => KInterface
  | TSlice _ => KSlice
  | TMap _ _ => KMap
  | TPtr _ => KPtr
  | TStruct _ _ => KStruct
  end.

#[global] Instance kind_eq_dec : EqDecision kind.
Proof. solve_decision. Defined.

(** [reflect.Type.Name] and the declared fields of a struct type. *)
Definition Name (t : gotype) : string :=
  match t with
  | TStruct name _ => name
  | _ => ""
  end.

Definition Fields (t : gotype) : list (string * gotype) :=
  match t with
  | TStruct _ fields => fields
  | _ => []
  end.

(** Values: what an [interface{}] of the decoded document holds ([GNil],
    [GBool], [GFloat] carrying the bits of the float64, [GString], [GSlice]
    for [[]interface{}], [GMap] for [map[string]interface{}]) and what a
    struct field holds (the same, and [GInt] for an integer field, [GSlice]
    for a typed slice, [GStruct] for a nested struct). *)
Inductive goval : Type :=
| GNil
| GBool (b : bool)
| GFloat (bits : Z)
| GInt (z : Z)
| GString (s : string)
| GSlice (elems : list goval)
| GMap (entries : list (string * goval))
| GStruct (fieldvals : list (string * goval)).

(** A struct value, addressed by field name. *)
Abbreviation struct_val := (gmap string goval).

(** The zero value of a type, as [reflect.New] and [reflect.MakeSlice]
    produce it. *)
Fixpoint zero (t : gotype) : goval :=
  match t with
  | TBool => GBool false
  | TInt => GInt 0
  | TFloat64 => GFloat 0
  | TString => GString ""
  | TInterface => GNil
  | TSlice _ => GNil
  | TMap _ _ => GNil
  | TPtr _ => GNil
  | TStruct _ fields =>
      GStruct ((fix zeros (l : list (string * gotype)) :=
                  match l with
                  | [] => []
                  | (n, ft) :: r => (n, zero ft) :: zeros r
                  end) fields)
  end.

(** [reflect.New(structType).Elem()] *)
Definition New (structType : gotype) : struct_val :=
  list_to_map (map (λ nt, (nt.1, zero nt.2)) (Fields structType)).

(** Lookup in a Go map held as an association list. *)
Fixpoint assoc {A : Type} (k : string) (m : list (string * A)) : option A :=
  match m with
  | [] => None
  | (k', v) :: r => if decide (k' = k) then Some v else assoc k r
  end.

(** [val.FieldByName(name)]: the declared type of the field, [None] for the
    invalid (zero) [reflect.Value]. *)
Definition FieldByName (structType : gotype) (name : string) : option gotype :=
  assoc name (Fields structType).

(** ** Outcomes

    A call returns normally with [nil] ([Ok]), returns an [error] ([Err]) or
    panics ([Panic]).  A panic is either raised by [panic("...")] in this
    file or inside package [reflect]. *)

Inductive abort : Type :=
| AbortMsg (msg : string)
| AbortReflect (op : string).

Inductive result (A : Type) : Type :=
| Ok (a : A)
| Err (msg : string)
| Panic (p : abort).
Arguments Ok {A} a.
Arguments Err {A} msg.
Arguments Panic {A} p.

(** ** Memory: slice headers over a flat store of struct cells *)

Record slice_hdr : Type := SliceHdr { s_ptr : nat; s_len : nat; s_cap : nat }.

(** The caller's side: the memory and the slice variable the pointer passed
    to [Unmarshal] points to. *)
Record world : Type := World { heap : list struct_val; dest : slice_hdr }.

(** The elements a slice header denotes. *)
Definition elems (h : list struct_val) (s : slice_hdr) : list struct_val :=
  take (s_len s) (drop (s_ptr s) h).

Definition dest_elems (w : world) : list struct_val := elems (heap w) (dest w).

(** [sliceVal.Index(i).Set(x)]: a write through the header into memory. *)
Definition store (h : list struct_val) (s : slice_hdr) (i : nat)
    (x : struct_val) : list struct_val :=
  <[s_ptr s + i := x]> h.

(** ** Identifier helpers

    [idFromObject], [setObjectID] and [setIDValue] are called by
    unmarshal.go but defined elsewhere in the package. *)

Definition digit_of (c : ascii) : option Z :=
  let n := nat_of_ascii c in
  if (48 <=? n)%nat && (n <=? 57)%nat then Some (Z.of_nat (n - 48)) else None.

Fixpoint parse_digits (s : string) (acc : Z) : option Z :=
  match s with
  | EmptyString => Some acc
  | String c r =>
      match digit_of c with
      | Some d => parse_digits r (10 * acc + d)
      | None => None
      end
  end.

(** Base-10 parsing of a 64-bit signed integer: an optional sign, then at
    least one digit; out-of-range values are rejected. *)
Definition ParseInt (s : string) : option Z :=
  let in_range (z : Z) : option Z :=
    if (- 2 ^ 63 <=? z)%Z && (z <? 2 ^ 63)%Z then Some z else None in
  match s with
  | EmptyString => None
  | String c r =>
      if decide (c = "-"%char) then
        match r with
        | EmptyString => None
        | _ => parse_digits r 0 ≫= λ z, in_range (- z)%Z
        end
      else if decide (c = "+"%char) then
        match r with
        | EmptyString => None
        | _ => parse_digits r 0 ≫= in_range
        end
      else parse_digits s 0 ≫= in_range
  end.

Definition FormatInt (z : Z) : string :=
  DecimalString.NilZero.string_of_int (Z.to_int z).

(** Modelled from the spec: [setIDValue], the identifier coercion of
    section 4.3, is missing from the sources.  Given the declared type of
    the target ([None] when the field does not exist) and the decoded
    value, it yields the value to store: a string field takes the string,
    an integer field its base-10 parse, a field of any other type is an
    error; so is a field that does not exist (section 4.2: the field must
    exist). *)
Definition setIDValue (field : option gotype) (idInterface : goval)
    : result goval :=
  match idInterface with
  | GString id =>
      match field with
      | None => Err "identifier field not found"
      | Some TString => Ok (GString id)
      | Some TInt =>
          match ParseInt id with
          | Some z => Ok (GInt z)
          | None => Err "invalid identifier format"
          end
      | Some _ => Err "unsupported identifier field type"
      end
  | _ => Err "expected id to be of type string"
  end.

(** Modelled from the spec: [setObjectID] is missing from the sources; it
    coerces the string into the identifier field [ID] of the struct and
    assigns it (section 4.1, step 3c). *)
Definition setObjectID (structType : gotype) (val : struct_val) (id : string)
    : struct_val * result unit :=
  match setIDValue (FieldByName structType "ID") (GString id) with
  | Ok x => (<["ID" := x]> val, Ok tt)
  | Err e => (val, Err e)
  | Panic p => (val, Panic p)
  end.

(** Modelled from the spec: [idFromObject] is missing from the sources; it
    reads the identifier field [ID] of an element as a string (section 3,
    Destination Collection). *)
Definition idFromObject (structType : gotype) (obj : struct_val)
    : result string :=
  match FieldByName structType "ID", obj !! "ID" with
  | Some TString, Some (GString s) => Ok s
  | Some TInt, Some (GInt z) => Ok (FormatInt z)
  | _, _ => Err "expected struct to have an identifier field"
  end.

(** ** [reflect.Value.Set] of a decoded value

    [field.Set(reflect.ValueOf(v))] panics unless the dynamic type of [v] is
    assignable to the type of the field: the same type, or the field is an
    [interface{}].  [reflect.ValueOf(nil)] is the zero [Value], which [Set]
    refuses. *)
Definition assignable (v : goval) (ft : gotype) : bool :=
  match v, ft with
  | GNil, _ => false
  | GStruct _, _ => false
  | _, TInterface => true
  | GBool _, TBool => true
  | GFloat _, TFloat64 => true
  | GInt _, TInt => true
  | GString _, TString => true
  | GSlice _, TSlice TInterface => true
  | GMap _, TMap TString TInterface => true
  | _, _ => false
  end.

(** The argument [values interface{}]: the nil interface, or a value of
    some type; when that type is a pointer, the pointer is nil or points
    to the caller's variable [dest]. *)
Inductive goarg : Type :=
| ArgNil
| ArgOf (t : gotype) (isnil : bool).

Definition contract : string :=
  "You must pass a pointer to a []struct to Unmarshal()".

(** A header lies within memory: its elements and its spare capacity. *)
Definition wf (h : list struct_val) (s : slice_hdr) : Prop :=
  s_ptr s + s_len s ≤ length h ∧ s_ptr s + s_cap s ≤ length h.

Definition wf_world (w : world) : Prop := wf (heap w) (dest w).

(** The arguments [Unmarshal] accepts: a non-nil pointer to a slice whose
    element type is a struct. *)
Definition struct_slice_pointer (values : goarg) : bool :=
  match values with
  | ArgOf (TPtr (TSlice (TStruct _ _))) false => true
  | _ => false
  end.


Section Unmarshal.

(** The naming conventions are defined elsewhere in the package; they are
    pure functions on strings. *)
Variables pluralize jsonify dejsonify : string → string.

(** The capacity [reflect.Append] chooses when it has to reallocate, from
    the old capacity and the length needed. *)
Variable growcap : nat → nat → nat.

(** [reflect.Append(s, x)]: a new header; the backing array is shared
    when the capacity suffices, else a fresh one receives a copy. *)
Definition Append (structType : gotype) (h : list struct_val)
    (s : slice_hdr) (x : struct_val) : list struct_val * slice_hdr :=
  if decide (s_len s + 1 ≤ s_cap s) then
    (<[s_ptr s + s_len s := x]> h,
     SliceHdr (s_ptr s) (s_len s + 1) (s_cap s))
  else
    let m := growcap (s_cap s) (s_len s + 1) in
    (h ++ elems h s ++ [x] ++ replicate (m - (s_len s + 1)) (New structType),
     SliceHdr (length h) (s_len s + 1) m).

(** *** [unmarshalLinks] *)

(** The loop [for i, idInterface := range links] filling the new slice. *)
Fixpoint setIDs (et : gotype) (links : list goval) (i : nat)
    (sliceField : list goval) : list goval * result unit :=
  match links with
  | [] => (sliceField, Ok tt)
  | idInterface :: rest =>
      match setIDValue (Some et) idInterface with
      | Ok x => setIDs et rest (S i) (<[i := x]> sliceField)
      | Err e => (sliceField, Err e)
      | Panic p => (sliceField, Panic p)
      end
  end.

(** The body of [for linkName, linkObj := range linksMap]. *)
Definition linkEntry (structType : gotype) (val : struct_val)
    (linkName : string) (linkObj : goval) : struct_val * result unit :=
  match linkObj with
  | GSlice links =>
      let structFieldName := dejsonify linkName +:+ "IDs" in
      match FieldByName structType structFieldName with
      | Some (TSlice et) =>
          let made := replicate (length links) (zero et) in
          let '(filled, r) := setIDs et links 0 made in
          (<[structFieldName := GSlice filled]> val, r)
      | _ =>
          (val, Err ("expected struct to have a " +:+ structFieldName +:+ " slice"))
      end
  | GString links =>
      let structFieldName := dejsonify linkName +:+ "ID" in
      match setIDValue (FieldByName structType structFieldName) (GString links) with
      | Ok x => (<[structFieldName := x]> val, Ok tt)
      | Err e => (val, Err e)
      | Panic p => (val, Panic p)
      end
  | _ => (val, Err "expected string or array in links object")
  end.

Fixpoint unmarshalLinks (structType : gotype) (val : struct_val)
    (linksMap : list (string * goval)) : struct_val * result unit :=
  match linksMap with
  | [] => (val, Ok tt)
  | (linkName, linkObj) :: rest =>
      match linkEntry structType val linkName linkObj with
      | (val', Ok _) => unmarshalLinks structType val' rest
      | (val', r) => (val', r)
      end
  end.

(** *** [unmarshalInto] *)

(** The body of [for k, v := range attributes]. *)
Definition setKey (structType : gotype) (val : struct_val)
    (k : string) (v : goval) : struct_val * result unit :=
  if decide (k = "links") then
    match v with
    | GMap linksMap => unmarshalLinks structType val linksMap
    | _ => (val, Err "expected links to be an object")
    end
  else if decide (k = "id") then
    match v with
    | GString id => setObjectID structType val id
    | _ => (val, Err "expected id to be of type string")
    end
  else
    let fieldName := dejsonify k in
    match FieldByName structType fieldName with
    | None =>
        (val, Err ("expected struct " +:+ Name structType +:+ " to have field " +:+ fieldName))
    | Some ft =>
        if assignable v ft then (<[fieldName := v]> val, Ok tt)
        else (val, Panic (AbortReflect "Set"))
    end.

Fixpoint setKeys (structType : gotype) (val : struct_val)
    (attributes : list (string * goval)) : struct_val * result unit :=
  match attributes with
  | [] => (val, Ok tt)
  | (k, v) :: rest =>
      match setKey structType val k v with
      | (val', Ok _) => setKeys structType val' rest
      | (val', r) => (val', r)
      end
  end.

(** The scan [for i := 0; i < sliceVal.Len(); i++]: the index of the first
    element whose identifier is [id]. *)
Fixpoint findByID (structType : gotype) (id : string)
    (objs : list struct_val) (i : nat) : result (option nat) :=
  match objs with
  | [] => Ok None
  | obj :: rest =>
      match idFromObject structType obj with
      | Ok otherID =>
          if decide (otherID = id) then Ok (Some i)
          else findByID structType id rest (S i)
      | Err e => Err e
      | Panic p => Panic p
      end
  end.

(** The first part of the loop body: which of the elements [objs] of the
    slice, if any, the record is to be merged into. *)
Definition lookupID (structType : gotype) (attributes : list (string * goval))
    (objs : list struct_val) : result (option nat) :=
  match assoc "id" attributes with
  | None | Some GNil => Ok None
  | Some (GString id) => findByID structType id objs 0
  | Some _ => Err "id must be a string"
  end.

(** The body of [for _, m := range models].  [val] is either the element
    [sliceVal.Index(i)] itself, so that every assignment to one of its
    fields is a write to memory that stays whatever happens next, or a new
    struct that reaches the slice only through [reflect.Append]. *)
Definition unmarshalRecord (structType : gotype) (rootName : string)
    (m : goval) (h : list struct_val) (sliceVal : slice_hdr)
    : list struct_val * result slice_hdr :=
  match m with
  | GMap attributes =>
      match lookupID structType attributes (elems h sliceVal) with
      | Err e => (h, Err e)
      | Panic p => (h, Panic p)
      | Ok (Some i) =>
          let obj := default (New structType) (elems h sliceVal !! i) in
          match setKeys structType obj attributes with
          | (val, Ok _) => (store h sliceVal i val, Ok sliceVal)
          | (val, Err e) => (store h sliceVal i val, Err e)
          | (val, Panic p) => (store h sliceVal i val, Panic p)
          end
      | Ok None =>
          match setKeys structType (New structType) attributes with
          | (val, Ok _) =>
              let '(h', s') := Append structType h sliceVal val in (h', Ok s')
          | (_, Err e) => (h, Err e)
          | (_, Panic p) => (h, Panic p)
          end
      end
  | _ => (h, Err ("expected an array of objects under key '" +:+ rootName +:+ "'"))
  end.

Fixpoint unmarshalRecords (structType : gotype) (rootName : string)
    (models : list goval) (h : list struct_val) (sliceVal : slice_hdr)
    : list struct_val * result slice_hdr :=
  match models with
  | [] => (h, Ok sliceVal)
  | m :: rest =>
      match unmarshalRecord structType rootName m h sliceVal with
      | (h', Ok sliceVal') => unmarshalRecords structType rootName rest h' sliceVal'
      | (h', r) => (h', r)
      end
  end.

Definition unmarshalInto (ctx : gmap string goval) (structType : gotype)
    (h : list struct_val) (sliceVal : slice_hdr)
    : list struct_val * result slice_hdr :=
  let rootName := pluralize (jsonify (Name structType)) in
  match ctx !! rootName with
  | None | Some GNil =>
      (h, Err ("expected root document to include a '" +:+ rootName +:+ "' key but it didn't."))
  | Some (GSlice models) => unmarshalRecords structType rootName models h sliceVal
  | Some _ => (h, Err ("expected slice under key '" +:+ rootName +:+ "'"))
  end.

(** *** [Unmarshal] *)

Definition Unmarshal (ctx : gmap string goval) (values : goarg) (w : world)
    : world * result unit :=
  match values with
  | ArgOf (TPtr sliceType) false =>
      (* a non-nil pointer; [sliceType] is the type it points to *)
      match sliceType with
      | TSlice structType =>
          if decide (Kind structType = KStruct) then
            (* [val := sliceVal], and [sliceVal.Set(val)] on success only *)
            match unmarshalInto ctx structType (heap w) (dest w) with
            | (h, Ok val) => (World h val, Ok tt)
            | (h, Err e) => (World h (dest w), Err e)
            | (h, Panic p) => (World h (dest w), Panic p)
            end
          else (w, Panic (AbortMsg contract))
      | _ => (w, Panic (AbortMsg contract))
      end
  | _ => (w, Panic (AbortMsg contract))
  end.

(** *** [UnmarshalFromJSON] *)

(** [json.Unmarshal(data, &ctx)] of package encoding/json: the decoded
    document, or the error of the decoder. *)
Variable json_Unmarshal : list Byte.byte → gmap string goval + string.

Definition UnmarshalFromJSON (data : list Byte.byte) (values : goarg)
    (w : world) : world * result unit :=
  match json_Unmarshal data with
  | inr err => (w, Err err)
  | inl ctx => Unmarshal ctx values w
  end.


(** *** Definitions used to state the properties

    None of what follows is in the source. *)

(** The element has an identifier, and it is not [id]. *)
Definition other_id (st : gotype) (id : string) (o : struct_val) : Prop :=
  ∃ other, idFromObject st o = Ok other ∧ other ≠ id.

(** The same outcome, with another value on success. *)
Definition outcome {A B : Type} (r : result A) (b : B) : result B :=
  match r with
  | Ok _ => Ok b
  | Err e => Err e
  | Panic p => Panic p
  end.

(** What [unmarshalRecord] and the loop do to the sequence of elements the
    working slice denotes, memory left out (lemmas [unmarshalRecord_elems]
    and [unmarshalRecords_elems]). *)
Definition mergeRecord (st : gotype) (rootName : string) (m : goval)
    (l : list struct_val) : list struct_val * result unit :=
  match m with
  | GMap attributes =>
      match lookupID st attributes l with
      | Err e => (l, Err e)
      | Panic p => (l, Panic p)
      | Ok (Some i) =>
          let '(val, r) :=
            setKeys st (default (New st) (l !! i)) attributes in
          (<[i := val]> l, r)
      | Ok None =>
          match setKeys st (New st) attributes with
          | (val, Ok _) => (l ++ [val], Ok tt)
          | (_, r) => (l, r)
          end
      end
  | _ => (l, Err ("expected an array of objects under key '" +:+ rootName +:+ "'"))
  end.

Fixpoint mergeRecords (st : gotype) (rootName : string)
    (models : list goval) (l : list struct_val)
    : list struct_val * result unit :=
  match models with
  | [] => (l, Ok tt)
  | m :: rest =>
      match mergeRecord st rootName m l with
      | (l', Ok _) => mergeRecords st rootName rest l'
      | (l', r) => (l', r)
      end
  end.

(** The header the loop is working with after a step. *)
Definition header_after (r : result slice_hdr) (s : slice_hdr) : slice_hdr :=
  match r with
  | Ok s' => s'
  | _ => s
  end.

(** The fields a record writes, and whether it is accepted. *)
Definition patch (st : gotype) (attributes : list (string * goval))
    : struct_val :=
  (setKeys st ∅ attributes).1.

Definition verdict (st : gotype) (attributes : list (string * goval))
    : result unit :=
  (setKeys st ∅ attributes).2.

(** The record carries a string "id", and an element the record has been
    written to has that identifier: no other key of the record sets the
    identifier field to something else, and an integer identifier is
    written the way it is printed. *)
Definition stable_id (st : gotype) (m : goval) : Prop :=
  ∃ attributes id,
    m = GMap attributes ∧
    assoc "id" attributes = Some (GString id) ∧
    ∀ obj val, setKeys st obj attributes = (val, Ok tt) →
               idFromObject st val = Ok id.

(** Two sequences that agree but for element [k], where they agree on the
    identifier and on every field outside [p]. *)
Definition differ_at (st : gotype) (k : nat) (p : struct_val)
    (x a : list struct_val) : Prop :=
  ∃ xk ak, a !! k = Some ak ∧ x = <[k := xk]> a ∧
           p ∪ xk = p ∪ ak ∧ idFromObject st xk = idFromObject st ak.

(** The field a links entry is written to, when its value has one of the
    two shapes [linkEntry] accepts. *)
Definition linkField (linkName : string) (linkObj : goval) : list string :=
  match linkObj with
  | GSlice _ => [dejsonify linkName +:+ "IDs"]
  | GString _ => [dejsonify linkName +:+ "ID"]
  | _ => []
  end.

(** The fields a key of a record is written to. *)
Definition keyFields (k : string) (v : goval) : list string :=
  if decide (k = "links") then
    match v with
    | GMap linksMap => linksMap ≫= λ e, linkField e.1 e.2
    | _ => []
    end
  else if decide (k = "id") then ["ID"]
  else [dejsonify k].

Definition recordFields (attributes : list (string * goval)) : list string :=
  attributes ≫= λ kv, keyFields kv.1 kv.2.

(** The struct a record is appended as when it matches no element. *)
Definition populate (st : gotype) (m : goval) : struct_val :=
  match m with
  | GMap attributes => (setKeys st (New st) attributes).1
  | _ => New st
  end.


(** The fields the records of a document are written to. *)
Definition documentFields (models : list goval) : list string :=
  models ≫= λ m,
    match m with
    | GMap attributes => recordFields attributes
    | _ => []
    end.


(** What [linkEntry] asks of a links entry, and [setKey] of a key of a
    record, to assign it. *)
Definition entryShape (st : gotype) (linkName : string) (linkObj : goval)
    : Prop :=
  (∃ s, linkObj = GString s) ∨
  (∃ ids et, linkObj = GSlice ids ∧
             FieldByName st (dejsonify linkName +:+ "IDs") = Some (TSlice et)).

Definition keyShape (st : gotype) (k : string) (v : goval) : Prop :=
  if decide (k = "links") then
    ∃ linksMap, v = GMap linksMap ∧
                ∀ name obj, (name, obj) ∈ linksMap → entryShape st name obj
  else if decide (k = "id") then ∃ id, v = GString id
  else ∃ ft, FieldByName st (dejsonify k) = Some ft ∧ assignable v ft = true.


(** The fields one key writes, put on top of a struct. *)
Definition write_key (st : gotype) (m : struct_val) (kv : string * goval)
    : struct_val :=
  (setKey st ∅ kv.1 kv.2).1 ∪ m.



End Unmarshal.

(** ** A concrete instance

    Modelled from the spec: [pluralize], [jsonify] and [dejsonify] are
    missing from the sources (section 6: the plural form, the key
    convention of a struct-style name and its inverse).  The instance below
    forms the plural with a final s and switches the case of the first
    letter; the general statements hold for any three functions. *)

Definition to_lower (c : ascii) : ascii :=
  let n := nat_of_ascii c in
  if (65 <=? n) && (n <=? 90) then ascii_of_nat (n + 32) else c.

Definition to_upper (c : ascii) : ascii :=
  let n := nat_of_ascii c in
  if (97 <=? n) && (n <=? 122) then ascii_of_nat (n - 32) else c.

Definition pluralize_s (word : string) : string := word +:+ "s".

Definition jsonify_lower (s : string) : string :=
  match s with
  | EmptyString => EmptyString
  | String c r => String (to_lower c) r
  end.

Definition dejsonify_upper (s : string) : string :=
  match s with
  | EmptyString => EmptyString
  | String c r => String (to_upper c) r
  end.

(** Doubling, as [reflect.Append] grows a slice. *)
Definition growcap_double (cap needed : nat) : nat :=
  if decide (cap = 0) then needed else Nat.max needed (cap + cap).

Definition UnmarshalPosts :=
  Unmarshal pluralize_s jsonify_lower dejsonify_upper growcap_double.

(** [type Post struct { ID string; Title string; Views float64; TagIDs []string; AuthorID int }] *)
Definition Post : gotype :=
  TStruct "Post"
    [("ID", TString); ("Title", TString); ("Views", TFloat64);
     ("TagIDs", TSlice TString); ("AuthorID", TInt)].

Definition mkPost (id title : string) (tags : list string) : struct_val :=
  <["ID" := GString id]> (<["Title" := GString title]>
    (<["TagIDs" := GSlice (GString <$> tags)]> (New Post))).

Definition argPosts : goarg := ArgOf (TPtr (TSlice Post)) false.

Definition doc (records : list goval) : gmap string goval :=
  {["posts" := GSlice records]}.



(** Destinations: an empty slice, and a slice of one post with identifier
    "42", without spare capacity. *)
Definition no_posts : world := World [] (SliceHdr 0 0 0).

Definition one_post : world :=
  World [mkPost "42" "old" ["1"; "2"]] (SliceHdr 0 1 1).

(** Records: a change of title for post "42", a new post without "id", and
    a record with a key that [Post] has no field for. *)
Definition retitle42 : goval :=
  GMap [("id", GString "42"); ("title", GString "new")].

Definition untitled : goval := GMap [("title", GString "a")].

Definition bogus : goval := GMap [("bogus", GFloat 1)].


Abbreviation UnmarshalRecordPosts :=
  (unmarshalRecord dejsonify_upper growcap_double Post "posts").

(** A destination inside a larger memory: cell 0 and cell 3 belong to
    others, cell 1 is the post "42" and cell 2 is spare capacity. *)
Definition shared_memory : world :=
  World [mkPost "1" "above" []; mkPost "42" "old" ["1"; "2"];
         New Post; mkPost "2" "below" []]
        (SliceHdr 1 1 2).

(** [json.Unmarshal] of encoding/json on the three inputs the examples
    use.  The empty input and the single byte of an opening brace end
    before a value is complete, and the decoder refuses them with this
    message; the two bytes of an empty object decode to a map without
    keys.  No other input is used; this table answers them with an error
    of its own and says nothing about the decoder there. *)
Definition sample_decoder (data : list Byte.byte) : gmap string goval + string :=
  match data with
  | [] => inr "unexpected end of JSON input"
  | [Byte.x7b] => inr "unexpected end of JSON input"
  | [Byte.x7b; Byte.x7d] => inl ∅
  | _ => inr "input outside the examples"
  end.

(** * Properties *)

(** ** Memory *)

Lemma length_elems h s : wf h s → length (elems h s) = s_len s.
Proof.
  intros [Hl _]. unfold elems. rewrite length_take, length_drop. lia.
Qed.

Lemma elems_lookup h s i :
  i < s_len s → elems h s !! i = h !! (s_ptr s + i).
Proof.
  intros Hi. unfold elems. by rewrite lookup_take_lt, lookup_drop.
Qed.

Lemma elems_store h s i x :
  i < s_len s → elems (store h s i x) s = <[i := x]> (elems h s).
Proof.
  intros Hi. unfold elems, store.
  rewrite drop_insert_ge by lia.
  replace (s_ptr s + i - s_ptr s) with i by lia.
  by rewrite take_insert_lt.
Qed.

Lemma wf_store h s s' i x : wf h s' → wf (store h s i x) s'.
Proof. unfold wf, store. by rewrite length_insert. Qed.

(** A write to a cell outside a header does not show through it. *)
Lemma elems_insert_outside h s a x :
  a < s_ptr s ∨ s_ptr s + s_len s ≤ a → elems (<[a := x]> h) s = elems h s.
Proof.
  intros Ha. unfold elems.
  destruct (decide (a < s_ptr s)).
  - by rewrite drop_insert_lt.
  - rewrite drop_insert_ge by lia. apply take_insert_ge. lia.
Qed.

Lemma elems_app h t s : wf h s → elems (h ++ t) s = elems h s.
Proof.
  intros [Hl _]. unfold elems.
  rewrite take_drop_commute, (take_drop_commute h).
  by rewrite take_app_le by lia.
Qed.

Section Properties.

Variables pluralize jsonify dejsonify : string → string.
Variable growcap : nat → nat → nat.

(** [reflect.Append] adds the element at the end of what the new header
    denotes and leaves what the old header denotes as it was. *)
Lemma Append_spec st h s x h' s' :
  wf h s →
  Append growcap st h s x = (h', s') →
  elems h' s' = elems h s ++ [x] ∧ elems h' s = elems h s ∧
  wf h' s' ∧ wf h' s ∧ s_len s' = S (s_len s).
Proof.
  intros [Hl Hc] HA. unfold Append in HA. case_decide as Hcap.
  - injection HA as <- <-. split_and!; simpl.
    + unfold elems; simpl. rewrite drop_insert_ge by lia.
      replace (s_ptr s + s_len s - s_ptr s) with (s_len s) by lia.
      replace (s_len s + 1) with (S (s_len s)) by lia.
      rewrite (take_S_r _ _ x).
      * by rewrite take_insert_ge.
      * apply list_lookup_insert_eq. rewrite length_drop. lia.
    + apply elems_insert_outside. lia.
    + unfold wf; simpl. rewrite length_insert. lia.
    + unfold wf. rewrite length_insert. lia.
    + lia.
  - injection HA as <- <-. split_and!; simpl.
    + unfold elems at 1; simpl. rewrite drop_app_length.
      rewrite cons_middle, app_assoc. apply take_app_length'.
      rewrite length_app, length_elems by done. simpl. lia.
    + by apply elems_app.
    + unfold wf; simpl. rewrite !length_app, length_elems by done.
      simpl. rewrite length_replicate. lia.
    + unfold wf. rewrite length_app. lia.
    + lia.
Qed.

(** *** The scan for an identifier *)


Lemma findByID_none st id objs n :
  (∀ o, o ∈ objs → other_id st id o) →
  findByID st id objs n = Ok None.
Proof.
  revert n. induction objs as [|o objs IH]; intros n Hall; [done|]. simpl.
  destruct (Hall o) as (other & -> & Hne); [by left|].
  rewrite decide_False by done. apply IH.
  intros o' Ho'. apply Hall. by right.
Qed.

Lemma findByID_inv st id objs n i :
  findByID st id objs n = Ok (Some i) →
  n ≤ i ∧ ∃ obj, objs !! (i - n) = Some obj ∧ idFromObject st obj = Ok id.
Proof.
  revert n. induction objs as [|o objs IH]; intros n; simpl; [done|].
  destruct (idFromObject st o) as [other| |] eqn:Ho; try done.
  case_decide as Hd.
  - intros [= <-]. split; [lia|]. exists o.
    by rewrite Nat.sub_diag, Ho, Hd.
  - intros (Hn & obj & Hobj & Hid)%IH. split; [lia|]. exists obj.
    split; [|done]. replace (i - n) with (S (i - S n)) by lia. done.
Qed.

Lemma findByID_lt st id objs i :
  findByID st id objs 0 = Ok (Some i) → i < length objs.
Proof.
  intros (_ & obj & Hobj & _)%findByID_inv.
  rewrite Nat.sub_0_r in Hobj. by eapply lookup_lt_Some.
Qed.

(** The scan only looks at the identifiers. *)
Lemma findByID_ext st id objs objs' n :
  idFromObject st <$> objs = idFromObject st <$> objs' →
  findByID st id objs n = findByID st id objs' n.
Proof.
  revert objs' n. induction objs as [|o objs IH]; intros [|o' objs'] n;
    simpl; try done.
  intros [= -> Hrest]. by rewrite (IH objs' (S n)).
Qed.

Lemma lookupID_lt st attrs objs i :
  lookupID st attrs objs = Ok (Some i) → i < length objs.
Proof.
  unfold lookupID. destruct (assoc "id" attrs) as [[]|]; try done.
  apply findByID_lt.
Qed.

Lemma lookupID_ext st attrs objs objs' :
  idFromObject st <$> objs = idFromObject st <$> objs' →
  lookupID st attrs objs = lookupID st attrs objs'.
Proof.
  intros Hids. unfold lookupID.
  destruct (assoc "id" attrs) as [[]|]; try done. by apply findByID_ext.
Qed.

(** *** The effect on the elements of the working slice

    The code does to the elements what [mergeRecord] and [mergeRecords]
    say. *)

Lemma unmarshalRecord_elems st rootName m h s h' r :
  wf h s →
  unmarshalRecord dejsonify growcap st rootName m h s = (h', r) →
  wf h' (header_after r s) ∧
  mergeRecord dejsonify st rootName m (elems h s)
    = (elems h' (header_after r s), outcome r tt).
Proof.
  intros Hwf. unfold unmarshalRecord, mergeRecord.
  destruct m as [| | | | | |attributes|]; try (intros [= <- <-]; done).
  destruct (lookupID st attributes (elems h s)) as [[i|]|e|p] eqn:Hlook;
    try (intros [= <- <-]; done).
  - apply lookupID_lt in Hlook. rewrite length_elems in Hlook by done.
    destruct (setKeys _ _ _ _) as [val [[]|e|p]];
      intros [= <- <-]; simpl;
      (split; [by apply wf_store|]); by rewrite elems_store.
  - destruct (setKeys _ _ _ _) as [val [[]|e|p]]; try (intros [= <- <-]; done).
    destruct (Append growcap st h s val) as [h1 s1] eqn:HA.
    destruct (Append_spec _ _ _ _ _ _ Hwf HA) as (He & _ & Hwf1 & _).
    intros [= <- <-]; simpl. by rewrite He.
Qed.

Lemma unmarshalRecords_elems st rootName models h s h' r :
  wf h s →
  unmarshalRecords dejsonify growcap st rootName models h s = (h', r) →
  ∃ s', wf h' s' ∧ (∀ s'', r = Ok s'' → s'' = s') ∧
        mergeRecords dejsonify st rootName models (elems h s)
          = (elems h' s', outcome r tt).
Proof.
  revert h s. induction models as [|m rest IH]; intros h s Hwf; simpl.
  - intros [= <- <-]. exists s. split_and!; [done|by intros ? [= ->]|done].
  - destruct (unmarshalRecord _ _ _ _ m h s) as [h1 r1] eqn:Hstep.
    destruct (unmarshalRecord_elems _ _ _ _ _ _ _ Hwf Hstep) as [Hwf1 ->].
    destruct r1 as [s1|e|p]; simpl in *.
    + by apply IH.
    + intros [= <- <-]. exists s. split_and!; done.
    + intros [= <- <-]. exists s. split_and!; done.
Qed.

Lemma unmarshalRecords_cons st rootName m rest h s :
  unmarshalRecords dejsonify growcap st rootName (m :: rest) h s =
  match unmarshalRecord dejsonify growcap st rootName m h s with
  | (h', Ok s') => unmarshalRecords dejsonify growcap st rootName rest h' s'
  | (h', r) => (h', r)
  end.
Proof. done. Qed.

Lemma unmarshalRecords_app st rootName before after h s :
  unmarshalRecords dejsonify growcap st rootName (before ++ after) h s =
  match unmarshalRecords dejsonify growcap st rootName before h s with
  | (h', Ok s') => unmarshalRecords dejsonify growcap st rootName after h' s'
  | (h', r) => (h', r)
  end.
Proof.
  revert h s. induction before as [|m rest IH]; intros h s; simpl; [done|].
  destruct (unmarshalRecord _ _ _ _ m h s) as [h1 [s1|e|p]]; auto.
Qed.

Lemma mergeRecords_app st rootName before after l :
  mergeRecords dejsonify st rootName (before ++ after) l =
  match mergeRecords dejsonify st rootName before l with
  | (l', Ok _) => mergeRecords dejsonify st rootName after l'
  | (l', r) => (l', r)
  end.
Proof.
  revert l. induction before as [|m rest IH]; intros l; simpl; [done|].
  destruct (mergeRecord dejsonify st rootName m l) as [l1 [[]|e|p]]; auto.
Qed.


(** *** Memory never shrinks *)

Lemma unmarshalRecord_length st rootName m h s h' r :
  unmarshalRecord dejsonify growcap st rootName m h s = (h', r) →
  length h ≤ length h'.
Proof.
  unfold unmarshalRecord.
  destruct m as [| | | | | |attributes|]; try (by intros [= <- <-]).
  destruct (lookupID st attributes (elems h s)) as [[i|]|e|p];
    try (by intros [= <- <-]).
  - destruct (setKeys _ _ _ _) as [val [[]|e|p]]; intros [= <- <-];
      unfold store; by rewrite length_insert.
  - destruct (setKeys _ _ _ _) as [val [[]|e|p]]; try (by intros [= <- <-]).
    unfold Append. case_decide; intros [= <- <-].
    + by rewrite length_insert.
    + rewrite length_app. lia.
Qed.

Lemma unmarshalRecords_length st rootName models h s h' r :
  unmarshalRecords dejsonify growcap st rootName models h s = (h', r) →
  length h ≤ length h'.
Proof.
  revert h s. induction models as [|m rest IH]; intros h s; simpl.
  - by intros [= <- <-].
  - destruct (unmarshalRecord _ _ _ _ m h s) as [h1 r1] eqn:Hstep.
    apply unmarshalRecord_length in Hstep.
    destruct r1 as [s1|e|p]; try (by intros [= <- <-]).
    intros ?%IH. lia.
Qed.

Lemma unmarshalInto_length ctx st h s h' r :
  unmarshalInto pluralize jsonify dejsonify growcap ctx st h s = (h', r) →
  length h ≤ length h'.
Proof.
  unfold unmarshalInto.
  destruct (ctx !! _) as [[]|]; try (by intros [= <- <-]).
  apply unmarshalRecords_length.
Qed.

(** *** Where a panic can come from *)

Lemma setIDValue_no_panic field idInterface p :
  setIDValue field idInterface ≠ Panic p.
Proof.
  unfold setIDValue. destruct idInterface; try done.
  destruct field as [[]|]; try done. by destruct (ParseInt s).
Qed.

Lemma setIDs_no_panic et links i sliceField p :
  (setIDs et links i sliceField).2 ≠ Panic p.
Proof.
  revert i sliceField. induction links as [|x links IH]; intros i sf; simpl;
    [done|].
  destruct (setIDValue (Some et) x) as [y|e|q] eqn:Hx; simpl; [apply IH|done|].
  by apply setIDValue_no_panic in Hx.
Qed.

Lemma linkEntry_no_panic st val linkName linkObj p :
  (linkEntry dejsonify st val linkName linkObj).2 ≠ Panic p.
Proof.
  unfold linkEntry. destruct linkObj as [| | | |s|links| |]; try done.
  - destruct (setIDValue _ (GString s)) as [y|e|q] eqn:Hx; try done.
    by apply setIDValue_no_panic in Hx.
  - destruct (FieldByName st _) as [[]|]; try done.
    destruct (setIDs _ _ _ _) as [filled r] eqn:Hs. simpl.
    intros ->. by eapply (setIDs_no_panic elem links 0); rewrite Hs.
Qed.

Lemma unmarshalLinks_no_panic st val linksMap p :
  (unmarshalLinks dejsonify st val linksMap).2 ≠ Panic p.
Proof.
  revert val. induction linksMap as [|[n o] rest IH]; intros val; simpl;
    [done|].
  destruct (linkEntry dejsonify st val n o) as [val' r] eqn:He.
  destruct r as [[]|e|q]; [apply IH|done|].
  simpl. intros [= ->]. by eapply linkEntry_no_panic; rewrite He.
Qed.

Lemma setKey_panic st val k v p :
  (setKey dejsonify st val k v).2 = Panic p → p = AbortReflect "Set".
Proof.
  unfold setKey. repeat case_decide.
  - destruct v; try done. intros Hp. by apply unmarshalLinks_no_panic in Hp.
  - destruct v; try done. unfold setObjectID.
    destruct (setIDValue _ _) as [y|e|q] eqn:Hx; try done.
    by apply setIDValue_no_panic in Hx.
  - destruct (FieldByName st _); [|done].
    destruct (assignable v _); [done|]. by intros [= <-].
Qed.

Lemma setKeys_panic st val attributes p :
  (setKeys dejsonify st val attributes).2 = Panic p → p = AbortReflect "Set".
Proof.
  revert val. induction attributes as [|[k v] rest IH]; intros val; simpl;
    [done|].
  destruct (setKey dejsonify st val k v) as [val' r] eqn:Hk.
  destruct r as [[]|e|q]; [apply IH|done|].
  simpl. intros [= ->]. eapply setKey_panic. by rewrite Hk.
Qed.

Lemma findByID_no_panic st id objs i p :
  findByID st id objs i ≠ Panic p.
Proof.
  revert i. induction objs as [|o objs IH]; intros i; simpl; [done|].
  unfold idFromObject.
  destruct (FieldByName st "ID") as [[]|]; try done;
    destruct (o !! "ID") as [[]|]; try done; by case_decide.
Qed.

Lemma lookupID_no_panic st attributes objs p :
  lookupID st attributes objs ≠ Panic p.
Proof.
  unfold lookupID. destruct (assoc "id" attributes) as [[]|]; try done.
  apply findByID_no_panic.
Qed.

Lemma unmarshalRecord_panic st rootName m h s p :
  (unmarshalRecord dejsonify growcap st rootName m h s).2 = Panic p →
  p = AbortReflect "Set".
Proof.
  unfold unmarshalRecord. destruct m as [| | | | | |attributes|]; try done.
  destruct (lookupID st attributes (elems h s)) as [[i|]|e|q] eqn:Hl;
    try done.
  - destruct (setKeys _ _ _ _) as [val r] eqn:Hs.
    destruct r as [[]|e|q]; try done. simpl. intros [= ->].
    eapply setKeys_panic. by rewrite Hs.
  - destruct (setKeys _ _ _ _) as [val r] eqn:Hs.
    destruct r as [[]|e|q]; try done.
    + by destruct (Append _ _ _ _ _).
    + simpl. intros [= ->]. eapply setKeys_panic. by rewrite Hs.
  - by apply lookupID_no_panic in Hl.
Qed.

Lemma unmarshalRecords_panic st rootName models h s p :
  (unmarshalRecords dejsonify growcap st rootName models h s).2 = Panic p →
  p = AbortReflect "Set".
Proof.
  revert h s. induction models as [|m rest IH]; intros h s; simpl; [done|].
  destruct (unmarshalRecord _ _ _ _ m h s) as [h1 r1] eqn:Hstep.
  destruct r1 as [s1|e|q]; [apply IH|done|].
  simpl. intros [= ->]. eapply unmarshalRecord_panic. by rewrite Hstep.
Qed.

Lemma unmarshalInto_panic ctx st h s p :
  (unmarshalInto pluralize jsonify dejsonify growcap ctx st h s).2 = Panic p →
  p = AbortReflect "Set".
Proof.
  unfold unmarshalInto. destruct (ctx !! _) as [[]|]; try done.
  apply unmarshalRecords_panic.
Qed.


(** *** The entry point *)

Lemma struct_slice_pointer_inv values :
  struct_slice_pointer values = true →
  ∃ st, values = ArgOf (TPtr (TSlice st)) false ∧ Kind st = KStruct.
Proof.
  destruct values as [|[| | | | | | |[| | | | |[]| | |]|] []]; try done.
  intros _. by eexists.
Qed.

Lemma Unmarshal_accepted ctx st w :
  Kind st = KStruct →
  Unmarshal pluralize jsonify dejsonify growcap ctx
    (ArgOf (TPtr (TSlice st)) false) w =
  match unmarshalInto pluralize jsonify dejsonify growcap ctx st
          (heap w) (dest w) with
  | (h, Ok val) => (World h val, Ok tt)
  | (h, Err e) => (World h (dest w), Err e)
  | (h, Panic p) => (World h (dest w), Panic p)
  end.
Proof. intros Hk. unfold Unmarshal. by rewrite decide_True. Qed.

Lemma Unmarshal_refused ctx values w :
  struct_slice_pointer values = false →
  Unmarshal pluralize jsonify dejsonify growcap ctx values w
    = (w, Panic (AbortMsg contract)).
Proof.
  destruct values as [|[| | | | | | |[| | | | |[]| | |]|] []]; try done.
Qed.

(** C7: when the document has no value under the root key
    [pluralize (jsonify typeName)], [Unmarshal] returns the error that
    names this key, and neither memory nor the caller's slice changes. *)
Theorem C7_missing_root_key ctx st w :
  Kind st = KStruct →
  ctx !! pluralize (jsonify (Name st)) = None →
  Unmarshal pluralize jsonify dejsonify growcap ctx
    (ArgOf (TPtr (TSlice st)) false) w
  = (w, Err ("expected root document to include a '"
             +:+ pluralize (jsonify (Name st))
             +:+ "' key but it didn't.")).
Proof.
  intros Hk Hroot. rewrite Unmarshal_accepted by done.
  unfold unmarshalInto. rewrite Hroot. by destruct w.
Qed.

(** An argument that is not a non-nil pointer to a slice of structs makes
    [Unmarshal] panic with its contract message and touch nothing; with an
    accepted argument the only panic left is the one of
    [reflect.Value.Set]. *)
Lemma Unmarshal_panics ctx values w :
  (struct_slice_pointer values = false →
   Unmarshal pluralize jsonify dejsonify growcap ctx values w
     = (w, Panic (AbortMsg contract)))
  ∧
  (struct_slice_pointer values = true →
   ∀ p, (Unmarshal pluralize jsonify dejsonify growcap ctx values w).2
          = Panic p →
        p = AbortReflect "Set").
Proof.
  split; [apply Unmarshal_refused|].
  intros (st & -> & Hk)%struct_slice_pointer_inv p.
  rewrite Unmarshal_accepted by done.
  destruct (unmarshalInto _ _ _ _ ctx st (heap w) (dest w)) as [h r] eqn:Hinto.
  destruct r as [s|e|q]; try done. simpl. intros [= ->].
  eapply unmarshalInto_panic. by rewrite Hinto.
Qed.

(** C10: when [Unmarshal] returns an error the caller's slice variable is
    the header it was, so the destination has the length it had before the
    call: what [reflect.Append] added stays in the working copy. *)
Theorem C10_error_keeps_length ctx values w w' e :
  wf_world w →
  Unmarshal pluralize jsonify dejsonify growcap ctx values w = (w', Err e) →
  dest w' = dest w ∧ length (dest_elems w') = length (dest_elems w).
Proof.
  intros Hwf. unfold Unmarshal.
  destruct values as [|[| | | | | | |[| | | | |structType| | |]|] []]; try done.
  case_decide; [|done].
  destruct (unmarshalInto _ _ _ _ ctx structType (heap w) (dest w))
    as [h r] eqn:Hinto.
  apply unmarshalInto_length in Hinto.
  destruct r as [s|e'|p]; intros [= <- <-]. split; [done|].
  unfold dest_elems; simpl. destruct Hwf as [Hl Hc].
  rewrite !length_elems; [done|done|]. split; simpl; lia.
Qed.


(** *** Links *)





(** *** What a record writes does not depend on the struct it is written to

    Every assignment sets a field to a value computed from the record and
    the struct type alone.  Running the keys on [m ∪ obj] therefore gives
    the fields written on top of [obj]. *)

Lemma linkEntry_union st (m obj : struct_val) linkName linkObj :
  linkEntry dejsonify st (m ∪ obj) linkName linkObj =
  ((linkEntry dejsonify st m linkName linkObj).1 ∪ obj,
   (linkEntry dejsonify st m linkName linkObj).2).
Proof.
  unfold linkEntry. destruct linkObj as [| | | |s|links| |]; try done.
  - destruct (setIDValue _ _); simpl; try done. by rewrite insert_union_l.
  - destruct (FieldByName st _) as [[]|]; try done.
    destruct (setIDs _ _ _ _). simpl. by rewrite insert_union_l.
Qed.

Lemma unmarshalLinks_union st (m obj : struct_val) linksMap :
  unmarshalLinks dejsonify st (m ∪ obj) linksMap =
  ((unmarshalLinks dejsonify st m linksMap).1 ∪ obj,
   (unmarshalLinks dejsonify st m linksMap).2).
Proof.
  revert m. induction linksMap as [|[n o] rest IH]; intros m; simpl; [done|].
  rewrite linkEntry_union.
  destruct (linkEntry dejsonify st m n o) as [m' [[]|e|p]]; simpl; auto.
Qed.

Lemma setKey_union st (m obj : struct_val) k v :
  setKey dejsonify st (m ∪ obj) k v =
  ((setKey dejsonify st m k v).1 ∪ obj, (setKey dejsonify st m k v).2).
Proof.
  unfold setKey. repeat case_decide.
  - destruct v; try done. apply unmarshalLinks_union.
  - destruct v; try done. unfold setObjectID.
    destruct (setIDValue _ _); simpl; try done. by rewrite insert_union_l.
  - destruct (FieldByName st _); [|done].
    destruct (assignable v _); simpl; [|done]. by rewrite insert_union_l.
Qed.

Lemma setKeys_union st (m obj : struct_val) attributes :
  setKeys dejsonify st (m ∪ obj) attributes =
  ((setKeys dejsonify st m attributes).1 ∪ obj,
   (setKeys dejsonify st m attributes).2).
Proof.
  revert m. induction attributes as [|[k v] rest IH]; intros m; simpl;
    [done|].
  rewrite setKey_union.
  destruct (setKey dejsonify st m k v) as [m' [[]|e|p]]; simpl; auto.
Qed.

Lemma setKeys_patch st obj attributes :
  setKeys dejsonify st obj attributes
  = (patch dejsonify st attributes ∪ obj, verdict dejsonify st attributes).
Proof.
  rewrite <- (left_id_L ∅ (∪) obj) at 1. apply setKeys_union.
Qed.

Lemma setKey_verdict st obj obj' k v :
  (setKey dejsonify st obj k v).2 = (setKey dejsonify st obj' k v).2.
Proof.
  rewrite <- (left_id_L ∅ (∪) obj), <- (left_id_L ∅ (∪) obj').
  by rewrite !setKey_union.
Qed.


Lemma unmarshalLinks_app st val pre post :
  unmarshalLinks dejsonify st val (pre ++ post) =
  match unmarshalLinks dejsonify st val pre with
  | (val', Ok _) => unmarshalLinks dejsonify st val' post
  | (val', r) => (val', r)
  end.
Proof.
  revert val. induction pre as [|[k v] pre IH]; intros val; simpl; [done|].
  destruct (linkEntry dejsonify st val k v) as [val' [[]|e|p]]; auto.
Qed.

(** *** The first key that is refused ends the call *)





(** *** Identifiers *)

Lemma idFromObject_ext st (obj obj' : struct_val) :
  obj !! "ID" = obj' !! "ID" → idFromObject st obj = idFromObject st obj'.
Proof. unfold idFromObject. by intros ->. Qed.

Lemma setObjectID_42 st (e : struct_val) :
  idFromObject st e = Ok "42" →
  ∃ x, ∀ val : struct_val,
    setObjectID st val "42" = (<["ID" := x]> val, Ok tt) ∧
    idFromObject st (<["ID" := x]> val) = Ok "42".
Proof.
  unfold idFromObject, setObjectID, setIDValue.
  destruct (FieldByName st "ID") as [[]|]; try done.
  - intros _. exists (GInt 42). intros val. by rewrite lookup_insert_eq.
  - intros _. exists (GString "42"). intros val. by rewrite lookup_insert_eq.
Qed.

(** C2: the destination holds one element, whose identifier is "42"; the
    document holds one record with "id": "42" and one attribute key [k],
    whose field exists, is not the identifier field and accepts the value
    [v].  Then [Unmarshal] succeeds, the destination still holds one
    element, its identifier is "42", the field of [k] holds [v] and every
    other field holds what it held. *)
Theorem C2_merge_by_identifier ctx st w e k v ft attributes :
  Kind st = KStruct →
  wf_world w →
  dest_elems w = [e] →
  idFromObject st e = Ok "42" →
  ctx !! pluralize (jsonify (Name st)) = Some (GSlice [GMap attributes]) →
  attributes = [("id", GString "42"); (k, v)] ∨
  attributes = [(k, v); ("id", GString "42")] →
  k ≠ "id" → k ≠ "links" →
  FieldByName st (dejsonify k) = Some ft →
  assignable v ft = true →
  dejsonify k ≠ "ID" →
  ∃ w' e',
    Unmarshal pluralize jsonify dejsonify growcap ctx
      (ArgOf (TPtr (TSlice st)) false) w = (w', Ok tt) ∧
    dest_elems w' = [e'] ∧
    e' !! dejsonify k = Some v ∧
    idFromObject st e' = Ok "42" ∧
    ∀ f, f ≠ dejsonify k → f ≠ "ID" → e' !! f = e !! f.
Proof.
  intros Hk Hwf Hdest Hid Hroot Hattrs Hkid Hklinks Hfield Hassign Hne.
  destruct (setObjectID_42 st e Hid) as (x & Hset).
  assert (∃ e', setKeys dejsonify st e attributes = (e', Ok tt) ∧
                e' !! dejsonify k = Some v ∧ e' !! "ID" = Some x ∧
                ∀ f, f ≠ dejsonify k → f ≠ "ID" → e' !! f = e !! f)
    as (e' & Hkeys & Hv & Hx & Hframe).
  { destruct Hattrs as [-> | ->]; simpl; unfold setKey;
      repeat case_decide; try done.
    - rewrite (proj1 (Hset e)), Hfield, Hassign. eexists. split; [done|].
      rewrite lookup_insert_eq, lookup_insert_ne, lookup_insert_eq by done.
      split_and!; try done. intros f ? ?. by rewrite !lookup_insert_ne.
    - rewrite Hfield, Hassign, (proj1 (Hset _)). eexists. split; [done|].
      rewrite lookup_insert_eq, lookup_insert_ne, lookup_insert_eq by done.
      split_and!; try done. intros f ? ?. by rewrite !lookup_insert_ne. }
  assert (lookupID st attributes [e] = Ok (Some 0)) as Hlook.
  { unfold lookupID.
    assert (assoc "id" attributes = Some (GString "42")) as ->.
    { destruct Hattrs as [-> | ->]; simpl; [done|]. by case_decide. }
    simpl. rewrite Hid. by repeat case_decide. }
  rewrite Unmarshal_accepted by done. unfold unmarshalInto.
  rewrite Hroot, unmarshalRecords_cons.
  destruct (unmarshalRecord _ _ _ _ _ (heap w) (dest w)) as [h' r] eqn:Hrec.
  apply unmarshalRecord_elems in Hrec as [Hwf' Hm]; [|done].
  fold (dest_elems w) in Hm. rewrite Hdest in Hm.
  unfold mergeRecord in Hm. rewrite Hlook in Hm. simpl in Hm.
  rewrite Hkeys in Hm. simpl in Hm.
  destruct r as [s'|err|p]; simplify_eq/=.
  exists (World h' s'), e'. split_and!; try done.
  erewrite idFromObject_ext; [apply (proj2 (Hset e))|].
  by rewrite Hx, lookup_insert_eq.
Qed.


(** *** Errors and what stays *)


(** *** Unmarshalling the same document again *)

Lemma stable_id_patch st attributes id obj :
  (∀ obj val, setKeys dejsonify st obj attributes = (val, Ok tt) →
              idFromObject st val = Ok id) →
  verdict dejsonify st attributes = Ok tt →
  idFromObject st (patch dejsonify st attributes ∪ obj) = Ok id.
Proof.
  intros Hstable Hv. apply (Hstable obj). by rewrite setKeys_patch, Hv.
Qed.

Lemma mergeRecord_accepted st rootName attributes id l l' :
  assoc "id" attributes = Some (GString id) →
  mergeRecord dejsonify st rootName (GMap attributes) l = (l', Ok tt) →
  verdict dejsonify st attributes = Ok tt ∧
  ((∃ i obj, findByID st id l 0 = Ok (Some i) ∧ l !! i = Some obj ∧
             l' = <[i := patch dejsonify st attributes ∪ obj]> l)
   ∨ (findByID st id l 0 = Ok None ∧
      l' = l ++ [patch dejsonify st attributes ∪ New st])).
Proof.
  intros Hid. unfold mergeRecord, lookupID. rewrite Hid.
  destruct (findByID st id l 0) as [[i|]|e|p] eqn:Hfind; try done.
  - destruct (findByID_inv _ _ _ _ _ Hfind) as (_ & obj & Hobj & _).
    rewrite Nat.sub_0_r in Hobj. rewrite Hobj. simpl.
    rewrite setKeys_patch. intros [= <- Hv]. split; [done|]. left. eauto.
  - rewrite setKeys_patch.
    destruct (verdict dejsonify st attributes) as [[]|e|p]; intros [= <-].
    split; [done|]. by right.
Qed.

Lemma mergeRecord_merge st rootName attributes id l i obj :
  assoc "id" attributes = Some (GString id) →
  findByID st id l 0 = Ok (Some i) →
  l !! i = Some obj →
  mergeRecord dejsonify st rootName (GMap attributes) l
  = (<[i := patch dejsonify st attributes ∪ obj]> l, verdict dejsonify st attributes).
Proof.
  intros Hid Hfind Hobj. unfold mergeRecord, lookupID.
  rewrite Hid, Hfind, Hobj. simpl. by rewrite setKeys_patch.
Qed.

Lemma mergeRecord_append st rootName attributes id l :
  assoc "id" attributes = Some (GString id) →
  findByID st id l 0 = Ok None →
  verdict dejsonify st attributes = Ok tt →
  mergeRecord dejsonify st rootName (GMap attributes) l
  = (l ++ [patch dejsonify st attributes ∪ New st], Ok tt).
Proof.
  intros Hid Hfind Hv. unfold mergeRecord, lookupID.
  by rewrite Hid, Hfind, setKeys_patch, Hv.
Qed.

Lemma mergeRecord_length st rootName m l l' r :
  mergeRecord dejsonify st rootName m l = (l', r) → length l ≤ length l'.
Proof.
  unfold mergeRecord.
  destruct m as [| | | | | |attributes|]; try (by intros [= <- <-]).
  destruct (lookupID st attributes l) as [[i|]|e|p]; try (by intros [= <- <-]).
  - destruct (setKeys _ _ _ _). intros [= <- <-]. by rewrite length_insert.
  - destruct (setKeys _ _ _ _) as [val [[]|e|p]]; intros [= <- <-]; [|done..].
    rewrite length_app. lia.
Qed.

Lemma mergeRecords_length st rootName models l l' r :
  mergeRecords dejsonify st rootName models l = (l', r) → length l ≤ length l'.
Proof.
  revert l. induction models as [|m rest IH]; intros l; simpl.
  - by intros [= <- <-].
  - destruct (mergeRecord dejsonify st rootName m l) as [l1 r1] eqn:Hstep.
    apply mergeRecord_length in Hstep.
    destruct r1 as [[]|e|p]; try (by intros [= <- <-]).
    intros ?%IH. lia.
Qed.

(** Writing [q] below [p] cannot be told apart once [p] is on top. *)
Lemma union_under (p q x a : struct_val) :
  p ∪ x = p ∪ a → p ∪ (q ∪ x) = p ∪ (q ∪ a).
Proof.
  intros Heq. apply map_eq. intros f.
  apply (f_equal (.!! f)) in Heq. rewrite !lookup_union in Heq.
  rewrite !lookup_union.
  destruct (p !! f), (q !! f), (x !! f), (a !! f);
    unfold union, option_union, union_with, option_union_with in *;
    congruence.
Qed.

Lemma differ_at_ids st k p x a :
  differ_at st k p x a → idFromObject st <$> x = idFromObject st <$> a.
Proof.
  intros (xk & ak & Hak & -> & _ & Hid).
  rewrite list_fmap_insert, Hid. apply list_insert_id.
  by rewrite list_lookup_fmap, Hak.
Qed.

Lemma differ_at_step st rootName k p x a m a' :
  differ_at st k p x a →
  stable_id dejsonify st m →
  mergeRecord dejsonify st rootName m a = (a', Ok tt) →
  ∃ x', mergeRecord dejsonify st rootName m x = (x', Ok tt) ∧ differ_at st k p x' a'.
Proof.
  intros Hrel (attributes & id & -> & Hid & Hstable) Hm.
  pose proof (differ_at_ids _ _ _ _ _ Hrel) as Hids.
  destruct Hrel as (xk & ak & Hak & -> & Hp & Hxk).
  assert (k < length a) as Hlt by by eapply lookup_lt_Some.
  destruct (mergeRecord_accepted _ _ _ _ _ _ Hid Hm)
    as (Hv & [(i & obj & Hfind & Hobj & ->) | (Hfind & ->)]).
  - rewrite <- (findByID_ext st id _ _ 0 Hids) in Hfind.
    destruct (decide (i = k)) as [-> | Hne].
    + assert (obj = ak) as -> by congruence.
      exists (<[k := patch dejsonify st attributes ∪ xk]> a). split.
      * rewrite (mergeRecord_merge st rootName attributes id _ k xk), Hv;
          [|done|done|by apply list_lookup_insert_eq].
        by rewrite list_insert_insert_eq.
      * exists (patch dejsonify st attributes ∪ xk), (patch dejsonify st attributes ∪ ak).
        split_and!.
        -- by apply list_lookup_insert_eq.
        -- by rewrite list_insert_insert_eq.
        -- by apply union_under.
        -- by rewrite !(stable_id_patch st attributes id).
    + exists (<[k := xk]> (<[i := patch dejsonify st attributes ∪ obj]> a)). split.
      * rewrite (mergeRecord_merge st rootName attributes id _ i obj), Hv;
          [|done|done|by rewrite list_lookup_insert_ne].
        by rewrite list_insert_insert_ne.
      * exists xk, ak. split_and!; try done.
        by rewrite list_lookup_insert_ne.
  - rewrite <- (findByID_ext st id _ _ 0 Hids) in Hfind.
    exists (<[k := xk]> (a ++ [patch dejsonify st attributes ∪ New st])). split.
    + rewrite (mergeRecord_append st rootName attributes id) by done.
      by rewrite insert_app_l.
    + exists xk, ak. split_and!; try done. by rewrite lookup_app_l.
Qed.

Lemma differ_at_run st rootName k p models x a a' :
  differ_at st k p x a →
  Forall (stable_id dejsonify st) models →
  mergeRecords dejsonify st rootName models a = (a', Ok tt) →
  ∃ x', mergeRecords dejsonify st rootName models x = (x', Ok tt) ∧
        differ_at st k p x' a'.
Proof.
  intros Hrel Hall. revert x a Hrel.
  induction Hall as [|m rest Hm _ IH]; intros x a Hrel; simpl.
  - intros [= <-]. eauto.
  - destruct (mergeRecord dejsonify st rootName m a) as [a1 r1] eqn:Hstep.
    destruct r1 as [[]|e|p']; try done.
    destruct (differ_at_step _ _ _ _ _ _ _ _ Hrel Hm Hstep) as (x1 & -> & Hrel1).
    by apply IH.
Qed.


Lemma findByID_app_found st id l t n i :
  findByID st id l n = Ok (Some i) →
  findByID st id (l ++ t) n = Ok (Some i).
Proof.
  revert n. induction l as [|o l IH]; intros n; simpl; [done|].
  destruct (idFromObject st o); try done. case_decide; [done|]. apply IH.
Qed.

Lemma findByID_app_none st id l t n :
  findByID st id l n = Ok None →
  findByID st id (l ++ t) n = findByID st id t (n + length l).
Proof.
  revert n. induction l as [|o l IH]; intros n; simpl.
  - intros _. f_equal. lia.
  - destruct (idFromObject st o); try done. case_decide; [done|].
    intros ->%(IH (S n)). f_equal. lia.
Qed.

(** A record that is merged does not see what lies behind the elements. *)
Lemma extend_step st rootName m a a' t :
  stable_id dejsonify st m →
  mergeRecord dejsonify st rootName m a = (a', Ok tt) →
  length a' = length a →
  mergeRecord dejsonify st rootName m (a ++ t) = (a' ++ t, Ok tt).
Proof.
  intros (attributes & id & -> & Hid & Hstable) Hm Hlen.
  destruct (mergeRecord_accepted _ _ _ _ _ _ Hid Hm)
    as (Hv & [(i & obj & Hfind & Hobj & ->) | (Hfind & ->)]).
  - rewrite (mergeRecord_merge st rootName attributes id _ i obj), Hv.
    + rewrite insert_app_l; [done|]. by eapply lookup_lt_Some.
    + done.
    + by apply findByID_app_found.
    + rewrite lookup_app_l; [done|]. by eapply lookup_lt_Some.
  - rewrite length_app in Hlen. simpl in Hlen. lia.
Qed.

Lemma extend_run st rootName models a a' t :
  Forall (stable_id dejsonify st) models →
  mergeRecords dejsonify st rootName models a = (a', Ok tt) →
  length a' = length a →
  mergeRecords dejsonify st rootName models (a ++ t) = (a' ++ t, Ok tt).
Proof.
  intros Hall. revert a.
  induction Hall as [|m rest Hm _ IH]; intros a; simpl.
  - by intros [= <-].
  - destruct (mergeRecord dejsonify st rootName m a) as [a1 r1] eqn:Hstep.
    destruct r1 as [[]|e|p]; try done. intros Hrun Hlen.
    pose proof (mergeRecord_length _ _ _ _ _ _ Hstep).
    pose proof (mergeRecords_length _ _ _ _ _ _ Hrun).
    rewrite (extend_step _ _ _ _ _ t Hm Hstep) by lia.
    apply IH; [done|lia].
Qed.

(** A criterion for [stable_id] that can be checked by evaluation: the
    record writes the identifier field, and what it writes reads back as
    its "id". *)
Lemma stable_id_intro st attributes id x :
  assoc "id" attributes = Some (GString id) →
  patch dejsonify st attributes !! "ID" = Some x →
  idFromObject st {["ID" := x]} = Ok id →
  stable_id dejsonify st (GMap attributes).
Proof.
  intros Hid Hx Hread. exists attributes, id. split_and!; try done.
  intros obj val. rewrite setKeys_patch. intros [= <- _].
  rewrite <- Hread. apply idFromObject_ext.
  by rewrite (lookup_union_Some_l _ _ _ x), lookup_singleton_eq.
Qed.


(** On the elements: a document whose records have stable identifiers,
    once accepted, is accepted again and changes nothing. *)
Lemma mergeRecords_again st rootName models :
  Forall (stable_id dejsonify st) models →
  ∀ l l1, mergeRecords dejsonify st rootName models l = (l1, Ok tt) →
          mergeRecords dejsonify st rootName models l1 = (l1, Ok tt).
Proof.
  induction models as [|m pre IH] using rev_ind; intros Hall l l1.
  - by intros [= <-].
  - apply Forall_app in Hall as [Hpre Hm%Forall_inv].
    rewrite !mergeRecords_app.
    destruct (mergeRecords dejsonify st rootName pre l) as [a r] eqn:Hrun.
    destruct r as [[]|e|p]; try done. simpl.
    destruct (mergeRecord dejsonify st rootName m a) as [l1' r] eqn:Hstep.
    destruct r as [[]|e|p]; try done. intros [= ->].
    specialize (IH Hpre _ _ Hrun).
    pose proof Hm as (attributes & id & -> & Hid & Hstable).
    destruct (mergeRecord_accepted _ _ _ _ _ _ Hid Hstep)
      as (Hv & [(k & ak & Hfind & Hak & ->) | (Hfind & ->)]).
    + (* the record was merged into element [k] *)
      destruct (findByID_inv _ _ _ _ _ Hfind) as (_ & ak' & Hak' & Hidk).
      rewrite Nat.sub_0_r in Hak'. assert (ak' = ak) as -> by congruence.
      assert (differ_at st k (patch dejsonify st attributes)
                (<[k := patch dejsonify st attributes ∪ ak]> a) a) as Hrel.
      { exists (patch dejsonify st attributes ∪ ak), ak. split_and!; try done.
        - by rewrite (assoc_L (∪)), (idemp_L (∪)).
        - by rewrite (stable_id_patch st attributes id). }
      destruct (differ_at_run _ _ _ _ _ _ _ _ Hrel Hpre IH)
        as (x' & -> & Hrel').
      pose proof (differ_at_ids _ _ _ _ _ Hrel') as Hids.
      destruct Hrel' as (xk & ak' & Hak'' & -> & Hp & Hxk).
      assert (ak' = ak) as -> by congruence.
      rewrite <- (findByID_ext st id _ _ 0 Hids) in Hfind.
      rewrite (mergeRecord_merge st rootName attributes id _ k xk), Hv;
        [|done|done|].
      * by rewrite list_insert_insert_eq, Hp.
      * apply list_lookup_insert_eq. by eapply lookup_lt_Some.
    + (* the record was appended *)
      rewrite (extend_run _ _ _ _ _ _ Hpre IH) by done.
      rewrite (mergeRecord_merge st rootName attributes id _ (length a)
                 (patch dejsonify st attributes ∪ New st)), Hv.
      * replace (length a) with (length a + 0) at 1 by lia.
        rewrite insert_app_r. simpl.
        by rewrite (assoc_L (∪)), (idemp_L (∪)).
      * done.
      * rewrite (findByID_app_none _ _ _ _ _ Hfind). simpl.
        rewrite (stable_id_patch st attributes id) by done.
        by rewrite decide_True.
      * by rewrite lookup_app_r, Nat.sub_diag.
Qed.

(** C5 as the code has it: when every record of the document has a stable
    identifier and [Unmarshal] succeeds, unmarshalling the same document
    once more (its objects visited in the same order) succeeds as well and
    leaves the elements of the destination as the first call left them. *)
Theorem C5_second_unmarshal_changes_nothing ctx st models w w1 :
  Kind st = KStruct →
  wf_world w →
  ctx !! pluralize (jsonify (Name st)) = Some (GSlice models) →
  Forall (stable_id dejsonify st) models →
  Unmarshal pluralize jsonify dejsonify growcap ctx
    (ArgOf (TPtr (TSlice st)) false) w = (w1, Ok tt) →
  ∃ w2,
    Unmarshal pluralize jsonify dejsonify growcap ctx
      (ArgOf (TPtr (TSlice st)) false) w1 = (w2, Ok tt) ∧
    dest_elems w2 = dest_elems w1.
Proof.
  intros Hk Hwf Hroot Hall. rewrite !Unmarshal_accepted by done.
  unfold unmarshalInto. rewrite Hroot.
  destruct (unmarshalRecords _ _ _ _ models (heap w) (dest w))
    as [h1 r1] eqn:Hrun1.
  destruct r1 as [s1|e|p]; try done. intros [= <-]. simpl.
  apply unmarshalRecords_elems in Hrun1 as (s' & Hwf1 & Hs' & Hm1); [|done].
  rewrite <- (Hs' s1) in Hwf1, Hm1 by done. simpl in Hm1.
  apply (mergeRecords_again _ _ _ Hall) in Hm1.
  destruct (unmarshalRecords _ _ _ _ models h1 s1) as [h2 r2] eqn:Hrun2.
  apply unmarshalRecords_elems in Hrun2 as (s2 & Hwf2 & Hs2 & Hm2); [|done].
  rewrite Hm1 in Hm2.
  destruct r2 as [s2'|e|p]; try done.
  rewrite (Hs2 s2') in * by done.
  eexists. split; [done|]. unfold dest_elems. simpl. congruence.
Qed.


(** ** Further properties of the code *)

(** *** Memory and the caller's slice *)

Lemma unmarshalInto_wf ctx st h s h' r :
  wf h s →
  unmarshalInto pluralize jsonify dejsonify growcap ctx st h s = (h', r) →
  wf h' (header_after r s) ∧ length h ≤ length h'.
Proof.
  intros Hwf Hinto. pose proof (unmarshalInto_length _ _ _ _ _ _ Hinto) as Hlen.
  split; [|done]. unfold unmarshalInto in Hinto.
  assert (wf h' s) as Hs by (destruct Hwf; split; lia).
  destruct (ctx !! _) as [[]|]; try (by injection Hinto as <- <-).
  apply unmarshalRecords_elems in Hinto as (s' & Hwf' & Hs' & _); [|done].
  destruct r as [s''| |]; [|done..]. simpl. by rewrite (Hs' s'').
Qed.

Lemma Unmarshal_inv ctx values w w' r :
  Unmarshal pluralize jsonify dejsonify growcap ctx values w = (w', r) →
  (struct_slice_pointer values = false ∧ w' = w ∧ r = Panic (AbortMsg contract))
  ∨ ∃ st h r',
      values = ArgOf (TPtr (TSlice st)) false ∧ Kind st = KStruct ∧
      unmarshalInto pluralize jsonify dejsonify growcap ctx st (heap w) (dest w)
        = (h, r') ∧
      w' = World h (header_after r' (dest w)) ∧ r = outcome r' tt.
Proof.
  destruct (struct_slice_pointer values) eqn:Hv.
  - apply struct_slice_pointer_inv in Hv as (st & -> & Hk).
    rewrite Unmarshal_accepted by done.
    destruct (unmarshalInto _ _ _ _ ctx st (heap w) (dest w)) as [h r'] eqn:Hinto.
    intros Hu. right. exists st, h, r'.
    by destruct r' as [s| |]; simplify_eq/=.
  - rewrite Unmarshal_refused by done. intros [= <- <-]. by left.
Qed.

Lemma Unmarshal_keeps_slice_in_memory_aux ctx values w w' r :
  wf_world w →
  Unmarshal pluralize jsonify dejsonify growcap ctx values w = (w', r) →
  wf_world w' ∧ length (heap w) ≤ length (heap w').
Proof.
  intros Hwf [(_ & -> & _) | (st & h & r' & _ & _ & Hinto & -> & _)]%Unmarshal_inv;
    [done|].
  by apply unmarshalInto_wf in Hinto.
Qed.

(** X1: whatever the outcome, memory does not shrink and the caller's slice
    variable holds a header that lies within it. *)
Theorem Unmarshal_keeps_slice_in_memory ctx values w w' r :
  wf_world w →
  Unmarshal pluralize jsonify dejsonify growcap ctx values w = (w', r) →
  wf_world w' ∧ length (heap w) ≤ length (heap w').
Proof. apply Unmarshal_keeps_slice_in_memory_aux. Qed.

(** X2: unless the root key holds an array nothing is touched: a missing
    key and a null are reported as the missing key, any other value as not
    being a slice. *)
Theorem Unmarshal_root_not_an_array ctx st w :
  Kind st = KStruct →
  (∀ models, ctx !! pluralize (jsonify (Name st)) ≠ Some (GSlice models)) →
  Unmarshal pluralize jsonify dejsonify growcap ctx
    (ArgOf (TPtr (TSlice st)) false) w
  = (w, Err (match ctx !! pluralize (jsonify (Name st)) with
             | None | Some GNil =>
                 "expected root document to include a '"
                 +:+ pluralize (jsonify (Name st)) +:+ "' key but it didn't."
             | Some _ =>
                 "expected slice under key '"
                 +:+ pluralize (jsonify (Name st)) +:+ "'"
             end)).
Proof.
  intros Hk Hroot. rewrite Unmarshal_accepted by done. unfold unmarshalInto.
  destruct (ctx !! _) as [[| | | | |models| |]|] eqn:Hctx;
    try (by destruct w).
  by destruct (Hroot models).
Qed.

(** *** How many elements, and which *)

Lemma mergeRecord_length_le st rootName m l l' r :
  mergeRecord dejsonify st rootName m l = (l', r) → length l' ≤ S (length l).
Proof.
  unfold mergeRecord.
  destruct m as [| | | | | |attributes|]; try (intros [= <- <-]; lia).
  destruct (lookupID st attributes l) as [[i|]|e|p];
    try (intros [= <- <-]; lia).
  - destruct (setKeys _ _ _ _). intros [= <- <-]. rewrite length_insert. lia.
  - destruct (setKeys _ _ _ _) as [val [[]|e|p]]; intros [= <- <-];
      rewrite ?length_app; simpl; lia.
Qed.

Lemma mergeRecords_length_le st rootName models l l' r :
  mergeRecords dejsonify st rootName models l = (l', r) →
  length l' ≤ length l + length models.
Proof.
  revert l. induction models as [|m rest IH]; intros l; simpl.
  - intros [= <- <-]. lia.
  - destruct (mergeRecord dejsonify st rootName m l) as [l1 r1] eqn:Hstep.
    apply mergeRecord_length_le in Hstep.
    destruct r1 as [[]|e|p]; try (intros [= <- <-]; lia).
    intros ?%IH. lia.
Qed.

Lemma Unmarshal_elems ctx st models w w' :
  Kind st = KStruct →
  wf_world w →
  ctx !! pluralize (jsonify (Name st)) = Some (GSlice models) →
  Unmarshal pluralize jsonify dejsonify growcap ctx
    (ArgOf (TPtr (TSlice st)) false) w = (w', Ok tt) →
  mergeRecords dejsonify st (pluralize (jsonify (Name st))) models
    (dest_elems w) = (dest_elems w', Ok tt).
Proof.
  intros Hk Hwf Hroot. rewrite Unmarshal_accepted by done.
  unfold unmarshalInto. rewrite Hroot.
  destruct (unmarshalRecords _ _ _ _ models (heap w) (dest w))
    as [h r] eqn:Hrun.
  apply unmarshalRecords_elems in Hrun as (s' & _ & Hs' & Hm); [|done].
  destruct r as [s| |]; try done. intros [= <-].
  rewrite <- (Hs' s) in Hm by done. exact Hm.
Qed.

(** X3: a successful call removes no element and adds at most one element
    per record of the document. *)
Theorem Unmarshal_length_bounds ctx st models w w' :
  Kind st = KStruct →
  wf_world w →
  ctx !! pluralize (jsonify (Name st)) = Some (GSlice models) →
  Unmarshal pluralize jsonify dejsonify growcap ctx
    (ArgOf (TPtr (TSlice st)) false) w = (w', Ok tt) →
  length (dest_elems w) ≤ length (dest_elems w') ∧
  length (dest_elems w') ≤ length (dest_elems w) + length models.
Proof.
  intros Hk Hwf Hroot Hu.
  pose proof (Unmarshal_elems _ _ _ _ _ Hk Hwf Hroot Hu) as Hm.
  split.
  - by eapply mergeRecords_length.
  - by eapply mergeRecords_length_le.
Qed.

Lemma mergeRecords_without_id st rootName models l l' :
  Forall (λ m, ∃ attributes, m = GMap attributes ∧
                             assoc "id" attributes = None) models →
  mergeRecords dejsonify st rootName models l = (l', Ok tt) →
  l' = l ++ (populate dejsonify st <$> models).
Proof.
  intros Hall. revert l.
  induction Hall as [|m rest (attributes & -> & Hid) _ IH]; intros l; simpl.
  - intros [= <-]. by rewrite app_nil_r.
  - unfold lookupID. rewrite Hid.
    destruct (setKeys dejsonify st (New st) attributes) as [val [[]|e|p]];
      try done.
    intros ->%IH. by rewrite <- (assoc_L (++)).
Qed.

(** X4: when no record of the document has an "id" key and the call
    succeeds, the destination is what it was, followed by one new struct
    per record, in the order of the document. *)
Theorem records_without_id_are_appended_in_order ctx st models w w' :
  Kind st = KStruct →
  wf_world w →
  ctx !! pluralize (jsonify (Name st)) = Some (GSlice models) →
  Forall (λ m, ∃ attributes, m = GMap attributes ∧
                             assoc "id" attributes = None) models →
  Unmarshal pluralize jsonify dejsonify growcap ctx
    (ArgOf (TPtr (TSlice st)) false) w = (w', Ok tt) →
  dest_elems w' = dest_elems w ++ (populate dejsonify st <$> models).
Proof.
  intros Hk Hwf Hroot Hall Hu.
  eapply mergeRecords_without_id; [done|].
  by eapply Unmarshal_elems.
Qed.


(** *** What is written where *)

Lemma unmarshalRecord_frame st rootName m h s h' r :
  wf h s →
  unmarshalRecord dejsonify growcap st rootName m h s = (h', r) →
  (∀ a, a < length h →
        a < s_ptr s ∨ s_ptr s + s_len s `max` s_cap s ≤ a →
        h' !! a = h !! a) ∧
  (∀ s', r = Ok s' →
         (s_ptr s' = s_ptr s ∧
          s_len s' `max` s_cap s' = s_len s `max` s_cap s)
         ∨ length h ≤ s_ptr s').
Proof.
  intros Hwf. unfold unmarshalRecord.
  destruct m as [| | | | | |attributes|];
    try (intros [= <- <-]; split; [done|by intros ? [=]]).
  destruct (lookupID st attributes (elems h s)) as [[i|]|e|p] eqn:Hlook;
    try (intros [= <- <-]; split; [done|by intros ? [=]]).
  - apply lookupID_lt in Hlook. rewrite length_elems in Hlook by done.
    assert (∀ val a, a < s_ptr s ∨ s_ptr s + s_len s `max` s_cap s ≤ a →
                     store h s i val !! a = h !! a) as Hstore.
    { intros val a Ha. unfold store. apply list_lookup_insert_ne. lia. }
    destruct (setKeys _ _ _ _) as [val [[]|e|p]]; intros [= <- <-];
      (split; [by auto|]); intros s'; [|done..].
    intros [= <-]. by left.
  - destruct (setKeys _ _ _ _) as [val [[]|e|p]];
      try (intros [= <- <-]; split; [done|by intros ? [=]]).
    unfold Append. case_decide as Hcap; intros [= <- <-]; split.
    + intros a _ Ha. apply list_lookup_insert_ne. lia.
    + intros s' [= <-]. left. simpl. lia.
    + intros a Ha _. by apply lookup_app_l.
    + intros s' [= <-]. by right.
Qed.

(** Cells that lie outside the working slice and that memory already has
    are out of reach of the loop. *)
Lemma unmarshalRecords_protected (P : nat → Prop) st rootName models h s h' r :
  wf h s →
  (∀ a, P a → a < length h ∧
               (a < s_ptr s ∨ s_ptr s + s_len s `max` s_cap s ≤ a)) →
  unmarshalRecords dejsonify growcap st rootName models h s = (h', r) →
  ∀ a, P a → h' !! a = h !! a.
Proof.
  revert h s. induction models as [|m rest IH]; intros h s Hwf HP; simpl.
  - by intros [= <- <-].
  - destruct (unmarshalRecord _ _ _ _ m h s) as [h1 r1] eqn:Hstep.
    pose proof (unmarshalRecord_length _ _ _ _ _ _ _ Hstep) as Hlen.
    destruct (unmarshalRecord_frame _ _ _ _ _ _ _ Hwf Hstep) as [Hframe Hhdr].
    destruct (unmarshalRecord_elems _ _ _ _ _ _ _ Hwf Hstep) as [Hwf1 _].
    destruct r1 as [s1|e|p].
    + intros Hrun a Ha. destruct (HP a Ha) as [Hlt Hout].
      rewrite <- (Hframe a) by done.
      eapply IH; [exact Hwf1| |exact Hrun|exact Ha].
      intros b Hb. destruct (HP b Hb) as [Hblt Hbout].
      split; [lia|]. simpl.
      destruct (Hhdr s1 eq_refl) as [[Hp Hm]|Hfresh]; lia.
    + intros [= <- <-] a Ha. destruct (HP a Ha). by apply Hframe.
    + intros [= <- <-] a Ha. destruct (HP a Ha). by apply Hframe.
Qed.

Lemma elems_ext h h' s :
  wf h s →
  (∀ a, a < length h → h' !! a = h !! a) →
  elems h' s = elems h s.
Proof.
  intros [Hl _] Hsame. unfold elems. apply list_eq. intros i.
  destruct (decide (i < s_len s)) as [Hi|Hi].
  - rewrite !lookup_take_lt, !lookup_drop by done. apply Hsame. lia.
  - by rewrite !lookup_take_ge by lia.
Qed.

(** X5: the call writes to no cell of the memory it is given outside the
    backing array of the destination, the cells from the slice's pointer up
    to its capacity (whatever the outcome). *)
Theorem Unmarshal_writes_only_backing_array ctx values w w' r a :
  wf_world w →
  s_len (dest w) ≤ s_cap (dest w) →
  Unmarshal pluralize jsonify dejsonify growcap ctx values w = (w', r) →
  a < length (heap w) →
  a < s_ptr (dest w) ∨ s_ptr (dest w) + s_cap (dest w) ≤ a →
  heap w' !! a = heap w !! a.
Proof.
  intros Hwf Hcap
    [(_ & -> & _) | (st & h & r' & _ & _ & Hinto & -> & _)]%Unmarshal_inv
    Ha Hout; [done|].
  simpl. unfold unmarshalInto in Hinto.
  destruct (ctx !! _) as [[| | | | |models| |]|];
    try (by injection Hinto as <- <-).
  eapply (unmarshalRecords_protected
            (λ b, b < length (heap w) ∧
                  (b < s_ptr (dest w) ∨ s_ptr (dest w) + s_cap (dest w) ≤ b)));
    [exact Hwf| |exact Hinto|done].
  intros b [Hb Hbout]. split; [done|]. lia.
Qed.

(** X6: the destination has no spare capacity and the first record of the
    document matches none of its elements.  Then the call writes to no cell
    of the memory it is given, and unless it succeeds the caller sees the
    elements it had, whatever the later records were merged into. *)
Theorem Unmarshal_after_reallocation ctx st attributes rest w w' r :
  Kind st = KStruct →
  wf_world w →
  s_cap (dest w) ≤ s_len (dest w) →
  ctx !! pluralize (jsonify (Name st)) = Some (GSlice (GMap attributes :: rest)) →
  lookupID st attributes (dest_elems w) = Ok None →
  Unmarshal pluralize jsonify dejsonify growcap ctx
    (ArgOf (TPtr (TSlice st)) false) w = (w', r) →
  (∀ a, a < length (heap w) → heap w' !! a = heap w !! a) ∧
  (r ≠ Ok tt → dest_elems w' = dest_elems w).
Proof.
  intros Hk Hwf Hfull Hroot Hlook. rewrite Unmarshal_accepted by done.
  unfold unmarshalInto. rewrite Hroot, unmarshalRecords_cons.
  unfold unmarshalRecord. fold (dest_elems w). rewrite Hlook.
  assert (∀ h s r', (∀ a, a < length (heap w) → h !! a = heap w !! a) →
            (World h s, outcome r' tt) = (w', r) →
            s = header_after r' (dest w) →
            (∀ a, a < length (heap w) → heap w' !! a = heap w !! a) ∧
            (r ≠ Ok tt → dest_elems w' = dest_elems w)) as Hend.
  { intros h s r' Hsame [= <- <-] -> . split; [done|].
    destruct r' as [s'| |]; [done|..]; intros _; by apply elems_ext. }
  destruct (setKeys dejsonify st (New st) attributes) as [val [[]|e|p]].
  - unfold Append. rewrite decide_False by lia.
    set (h1 := heap w ++ _). set (s1 := SliceHdr _ _ _).
    assert (wf h1 s1) as Hwf1.
    { by destruct (Append_spec st (heap w) (dest w) val h1 s1 Hwf)
        as (_ & _ & ? & _); [unfold Append; rewrite decide_False by lia|]. }
    destruct (unmarshalRecords _ _ _ _ rest h1 s1) as [h2 r2] eqn:Hrun.
    assert (∀ a, a < length (heap w) →
                 a < length h1 ∧
                 (a < s_ptr s1 ∨ s_ptr s1 + s_len s1 `max` s_cap s1 ≤ a)) as HP.
    { intros a Ha. subst h1 s1. rewrite length_app. simpl. lia. }
    pose proof (unmarshalRecords_protected (λ a, a < length (heap w))
                  _ _ _ _ _ _ _ Hwf1 HP Hrun) as Hprot.
    assert (∀ a, a < length (heap w) → h2 !! a = heap w !! a) as Hsame.
    { intros a Ha. rewrite (Hprot a Ha). by apply lookup_app_l. }
    destruct r2 as [s2|e|p]; intros Hu.
    + by apply (Hend h2 s2 (Ok s2)).
    + by apply (Hend h2 (dest w) (Err e)).
    + by apply (Hend h2 (dest w) (Panic p)).
  - intros Hu. by apply (Hend (heap w) (dest w) (Err e)).
  - intros Hu. by apply (Hend (heap w) (dest w) (Panic p)).
Qed.

(** *** The entry point for raw bytes *)

Variable json_Unmarshal : list Byte.byte → gmap string goval + string.

(** X7: an error of the decoder is what [UnmarshalFromJSON] returns,
    whatever the argument is, also one that [Unmarshal] would refuse with
    its panic: the argument is not looked at and nothing is touched.  A
    document the decoder accepts is handed to [Unmarshal], whose answer is
    the answer.  And when the call returns an error, the caller's slice is
    the header it was and has the length it had. *)
Theorem UnmarshalFromJSON_error data values w :
  (∀ err, json_Unmarshal data = inr err →
     UnmarshalFromJSON pluralize jsonify dejsonify growcap json_Unmarshal
       data values w = (w, Err err))
  ∧
  (∀ ctx, json_Unmarshal data = inl ctx →
     UnmarshalFromJSON pluralize jsonify dejsonify growcap json_Unmarshal
       data values w
     = Unmarshal pluralize jsonify dejsonify growcap ctx values w)
  ∧
  (∀ w' e,
     wf_world w →
     UnmarshalFromJSON pluralize jsonify dejsonify growcap json_Unmarshal
       data values w = (w', Err e) →
     dest w' = dest w ∧
     length (dest_elems w') = length (dest_elems w)).
Proof.
  unfold UnmarshalFromJSON. split_and!.
  - by intros err ->.
  - by intros ctx ->.
  - intros w' e Hwf. destruct (json_Unmarshal data) as [ctx|err].
    + intros Hu.
      destruct (Unmarshal_keeps_slice_in_memory_aux ctx values w w' (Err e)
                  Hwf Hu) as [Hwf' Hlen].
      assert (dest w' = dest w) as Hdest.
      { apply Unmarshal_inv in Hu
          as [(_ & _ & ?) | (st & h & r' & _ & _ & _ & -> & Hr)]; [done|].
        by destruct r'. }
      split; [done|]. unfold dest_elems. destruct Hwf'.
      rewrite !length_elems; [by rewrite Hdest|done|done].
    + by intros [= <- <-].
Qed.

(** *** Fields a record does not name *)

Lemma linkEntry_other_fields st (val : struct_val) linkName linkObj f :
  f ∉ linkField dejsonify linkName linkObj →
  (linkEntry dejsonify st val linkName linkObj).1 !! f = val !! f.
Proof.
  unfold linkEntry, linkField.
  destruct linkObj as [| | | |s|links| |]; try done.
  - intros [Hf _]%not_elem_of_cons. destruct (setIDValue _ _); simpl; try done.
    by apply lookup_insert_ne.
  - intros [Hf _]%not_elem_of_cons.
    destruct (FieldByName st _) as [[]|]; try done.
    destruct (setIDs _ _ _ _). simpl. by apply lookup_insert_ne.
Qed.

Lemma unmarshalLinks_other_fields st (val : struct_val) linksMap f :
  f ∉ linksMap ≫= (λ e, linkField dejsonify e.1 e.2) →
  (unmarshalLinks dejsonify st val linksMap).1 !! f = val !! f.
Proof.
  revert val. induction linksMap as [|[n o] rest IH]; intros val; [done|].
  rewrite bind_cons. intros [Hn Hrest]%not_elem_of_app. simpl.
  pose proof (linkEntry_other_fields st val n o f Hn) as Hentry.
  destruct (linkEntry dejsonify st val n o) as [val' [[]|e|p]]; simpl in *;
    try done.
  by rewrite IH.
Qed.

Lemma setKey_other_fields st (val : struct_val) k v f :
  f ∉ keyFields dejsonify k v →
  (setKey dejsonify st val k v).1 !! f = val !! f.
Proof.
  unfold setKey, keyFields. repeat case_decide.
  - destruct v; try done. apply unmarshalLinks_other_fields.
  - intros [Hf _]%not_elem_of_cons. destruct v; try done. unfold setObjectID.
    destruct (setIDValue _ _); simpl; try done.
    by apply lookup_insert_ne.
  - intros [Hf _]%not_elem_of_cons. destruct (FieldByName st _); [|done].
    destruct (assignable v _); simpl; [|done].
    by apply lookup_insert_ne.
Qed.

Lemma setKeys_other_fields st (val : struct_val) attributes f :
  f ∉ recordFields dejsonify attributes →
  (setKeys dejsonify st val attributes).1 !! f = val !! f.
Proof.
  revert val. induction attributes as [|[k v] rest IH]; intros val; [done|].
  unfold recordFields. rewrite bind_cons.
  intros [Hk Hrest]%not_elem_of_app. simpl.
  pose proof (setKey_other_fields st val k v f Hk) as Hkey.
  destruct (setKey dejsonify st val k v) as [val' [[]|e|p]]; simpl in *;
    try done.
  by rewrite IH.
Qed.

Lemma documentFields_cons m rest :
  documentFields dejsonify (m :: rest)
  = documentFields dejsonify [m] ++ documentFields dejsonify rest.
Proof.
  unfold documentFields. rewrite !bind_cons. simpl. by rewrite app_nil_r.
Qed.

Lemma documentFields_record attributes :
  documentFields dejsonify [GMap attributes] = recordFields dejsonify attributes.
Proof.
  unfold documentFields. rewrite bind_cons. simpl. by rewrite app_nil_r.
Qed.

Lemma mergeRecord_other_fields st rootName m l l' r j (obj : struct_val) :
  mergeRecord dejsonify st rootName m l = (l', r) →
  l !! j = Some obj →
  ∃ obj' : struct_val,
    l' !! j = Some obj' ∧
    ∀ f, f ∉ documentFields dejsonify [m] → obj' !! f = obj !! f.
Proof.
  intros Hm Hj. unfold mergeRecord in Hm.
  destruct m as [| | | | | |attributes|];
    try (injection Hm as <- <-; by eauto).
  rewrite documentFields_record.
  destruct (lookupID st attributes l) as [[i|]|e|p];
    try (injection Hm as <- <-; by eauto).
  - destruct (setKeys dejsonify st (default (New st) (l !! i)) attributes)
      as [val r'] eqn:Hset. injection Hm as <- <-.
    destruct (decide (j = i)) as [->|Hne].
    + exists val. rewrite list_lookup_insert_eq by by eapply lookup_lt_Some.
      split; [done|]. intros f Hf. rewrite Hj in Hset. simpl in Hset.
      change val with (val, r').1. rewrite <- Hset.
      by apply setKeys_other_fields.
    + exists obj. by rewrite list_lookup_insert_ne.
  - destruct (setKeys _ _ _ _) as [val [[]|e|p]]; injection Hm as <- <-;
      [|by eauto..].
    exists obj. split; [|done]. rewrite lookup_app_l; [done|].
    by eapply lookup_lt_Some.
Qed.

Lemma mergeRecords_other_fields st rootName models l l' r j (obj : struct_val) :
  mergeRecords dejsonify st rootName models l = (l', r) →
  l !! j = Some obj →
  ∃ obj' : struct_val,
    l' !! j = Some obj' ∧
    ∀ f, f ∉ documentFields dejsonify models → obj' !! f = obj !! f.
Proof.
  revert l obj. induction models as [|m rest IH]; intros l obj; simpl.
  - intros [= <- <-] Hj. eauto.
  - destruct (mergeRecord dejsonify st rootName m l) as [l1 r1] eqn:Hstep.
    intros Hrun Hj.
    destruct (mergeRecord_other_fields _ _ _ _ _ _ _ _ Hstep Hj)
      as (obj1 & Hj1 & Hsame1).
    assert (∀ f, f ∉ documentFields dejsonify (m :: rest) →
                 (f ∉ documentFields dejsonify [m]) ∧
                 (f ∉ documentFields dejsonify rest)) as Hsplit.
    { intros f. rewrite documentFields_cons. by intros ?%not_elem_of_app. }
    destruct r1 as [[]|e|p].
    + destruct (IH _ _ Hrun Hj1) as (obj' & Hj' & Hsame').
      exists obj'. split; [done|]. intros f [Hf1 Hf2]%Hsplit.
      by rewrite Hsame', Hsame1.
    + injection Hrun as <- <-. exists obj1. split; [done|].
      intros f [Hf1 _]%Hsplit. by apply Hsame1.
    + injection Hrun as <- <-. exists obj1. split; [done|].
      intros f [Hf1 _]%Hsplit. by apply Hsame1.
Qed.

(** X8: after a successful call every element the destination had is at
    the index it had, and holds what it held in every field that no key of
    the document is written to. *)
Theorem Unmarshal_keeps_unnamed_fields ctx st models w w' j (obj : struct_val) :
  Kind st = KStruct →
  wf_world w →
  ctx !! pluralize (jsonify (Name st)) = Some (GSlice models) →
  Unmarshal pluralize jsonify dejsonify growcap ctx
    (ArgOf (TPtr (TSlice st)) false) w = (w', Ok tt) →
  dest_elems w !! j = Some obj →
  ∃ obj' : struct_val,
    dest_elems w' !! j = Some obj' ∧
    ∀ f, f ∉ documentFields dejsonify models → obj' !! f = obj !! f.
Proof.
  intros Hk Hwf Hroot Hu Hj.
  eapply mergeRecords_other_fields; [|exact Hj].
  by eapply Unmarshal_elems.
Qed.

(** X9: the loop over a links object stops at the first entry whose value
    is neither a string nor an array, or is an array while the struct type
    declares no slice field [dejsonify name ++ "IDs"]; it returns the error
    for that case and leaves the struct as the entries before made it. *)
Theorem unmarshalLinks_refuses_entry st val pre linkName linkObj post :
  (unmarshalLinks dejsonify st val pre).2 = Ok tt →
  match linkObj with
  | GString _ => False
  | GSlice _ =>
      ∀ et, FieldByName st (dejsonify linkName +:+ "IDs") ≠ Some (TSlice et)
  | _ => True
  end →
  unmarshalLinks dejsonify st val (pre ++ (linkName, linkObj) :: post)
  = ((unmarshalLinks dejsonify st val pre).1,
     Err match linkObj with
         | GSlice _ =>
             "expected struct to have a " +:+ (dejsonify linkName +:+ "IDs")
             +:+ " slice"
         | _ => "expected string or array in links object"
         end).
Proof.
  intros Hpre Hobj. rewrite unmarshalLinks_app.
  destruct (unmarshalLinks dejsonify st val pre) as [val' r]. simpl in *.
  subst r. unfold linkEntry.
  destruct linkObj as [| | | |s|links| |]; try done.
  destruct (FieldByName st _) as [[| | | | |et| | |]|] eqn:Hf; try done.
  by destruct (Hobj et).
Qed.


(** *** What an accepted document looks like *)

Lemma unmarshalLinks_ok_entries st val linksMap :
  (unmarshalLinks dejsonify st val linksMap).2 = Ok tt →
  ∀ name obj, (name, obj) ∈ linksMap → entryShape dejsonify st name obj.
Proof.
  revert val. induction linksMap as [|[n o] rest IH]; intros val; simpl.
  - intros _ name obj Hin. by apply elem_of_nil in Hin.
  - destruct (linkEntry dejsonify st val n o) as [val' r] eqn:Hentry.
    destruct r as [[]|e|p]; try done.
    intros Hrest name obj [[= -> ->]|Hin]%elem_of_cons; [|by eapply IH].
    unfold linkEntry in Hentry. unfold entryShape.
    destruct o as [| | | |s|links| |]; try done; [by eauto|].
    destruct (FieldByName st _) as [[| | | | |et| | |]|]; try done.
    right. by eauto.
Qed.

Lemma setKey_ok_shape st val k v :
  (setKey dejsonify st val k v).2 = Ok tt → keyShape dejsonify st k v.
Proof.
  unfold setKey, keyShape. repeat case_decide.
  - destruct v as [| | | | | |linksMap|]; try done.
    intros Hlinks. exists linksMap. split; [done|].
    by eapply unmarshalLinks_ok_entries.
  - destruct v; try done. by eauto.
  - destruct (FieldByName st _) as [ft|]; [|done].
    destruct (assignable v ft) eqn:Ha; [|done]. by eauto.
Qed.

Lemma setKeys_ok_shape st val attributes :
  (setKeys dejsonify st val attributes).2 = Ok tt →
  ∀ k v, (k, v) ∈ attributes → keyShape dejsonify st k v.
Proof.
  revert val. induction attributes as [|[k0 v0] rest IH]; intros val; simpl.
  - intros _ k v Hin. by apply elem_of_nil in Hin.
  - destruct (setKey dejsonify st val k0 v0) as [val' r] eqn:Hkey.
    destruct r as [[]|e|p]; try done.
    intros Hrest k v [[= -> ->]|Hin]%elem_of_cons; [|by eapply IH].
    eapply setKey_ok_shape. by rewrite Hkey.
Qed.

Lemma unmarshalRecord_ok_shape st rootName m h s h' s' :
  unmarshalRecord dejsonify growcap st rootName m h s = (h', Ok s') →
  ∃ attributes, m = GMap attributes ∧
                ∀ k v, (k, v) ∈ attributes → keyShape dejsonify st k v.
Proof.
  unfold unmarshalRecord. destruct m as [| | | | | |attributes|]; try done.
  intros Hrec. exists attributes. split; [done|].
  destruct (lookupID st attributes (elems h s)) as [[i|]|e|p]; try done.
  - destruct (setKeys _ _ _ _) as [val r] eqn:Hset.
    destruct r as [[]|e|p]; try done.
    eapply setKeys_ok_shape. by rewrite Hset.
  - destruct (setKeys _ _ _ _) as [val r] eqn:Hset.
    destruct r as [[]|e|p]; try done.
    eapply setKeys_ok_shape. by rewrite Hset.
Qed.

Lemma unmarshalRecords_ok_shape st rootName models h s h' s' :
  unmarshalRecords dejsonify growcap st rootName models h s = (h', Ok s') →
  ∀ m, m ∈ models →
    ∃ attributes, m = GMap attributes ∧
                  ∀ k v, (k, v) ∈ attributes → keyShape dejsonify st k v.
Proof.
  revert h s. induction models as [|m0 rest IH]; intros h s; simpl.
  - intros _ m Hin. by apply elem_of_nil in Hin.
  - destruct (unmarshalRecord _ _ _ _ m0 h s) as [h1 r1] eqn:Hstep.
    destruct r1 as [s1|e|p]; try done.
    intros Hrun m [->|Hin]%elem_of_cons; [|by eapply IH].
    by eapply unmarshalRecord_ok_shape.
Qed.

(** X10: a document is accepted only if every record is an object in which
    "id" is a string (a null or a number is never accepted), "links" is an
    object whose entries are strings or arrays with a slice field to
    receive them, and every other key names a declared field that its
    value can be assigned to: no key is dropped silently. *)
Theorem accepted_document_shape ctx st models w w' m :
  Kind st = KStruct →
  ctx !! pluralize (jsonify (Name st)) = Some (GSlice models) →
  Unmarshal pluralize jsonify dejsonify growcap ctx
    (ArgOf (TPtr (TSlice st)) false) w = (w', Ok tt) →
  m ∈ models →
  ∃ attributes, m = GMap attributes ∧
                ∀ k v, (k, v) ∈ attributes → keyShape dejsonify st k v.
Proof.
  intros Hk Hroot. rewrite Unmarshal_accepted by done.
  unfold unmarshalInto. rewrite Hroot.
  destruct (unmarshalRecords _ _ _ _ models (heap w) (dest w))
    as [h r] eqn:Hrun.
  destruct r as [s| |]; try done. intros _.
  by eapply unmarshalRecords_ok_shape.
Qed.

(** *** The order in which the keys of a record are visited *)

Lemma setKeys_ok_keys st val attributes :
  (setKeys dejsonify st val attributes).2 = Ok tt →
  ∀ k v, (k, v) ∈ attributes → (setKey dejsonify st ∅ k v).2 = Ok tt.
Proof.
  revert val. induction attributes as [|[k0 v0] rest IH]; intros val; simpl.
  - intros _ k v Hin. by apply elem_of_nil in Hin.
  - destruct (setKey dejsonify st val k0 v0) as [val' r] eqn:Hkey.
    destruct r as [[]|e|p]; try done.
    intros Hrest k v [[= -> ->]|Hin]%elem_of_cons; [|by eapply IH].
    by rewrite (setKey_verdict st ∅ val), Hkey.
Qed.

Lemma setKeys_all_ok st obj attributes :
  (∀ k v, (k, v) ∈ attributes → (setKey dejsonify st ∅ k v).2 = Ok tt) →
  setKeys dejsonify st obj attributes
  = (foldl (write_key dejsonify st) obj attributes, Ok tt).
Proof.
  revert obj. induction attributes as [|[k v] rest IH]; intros obj Hall;
    simpl; [done|].
  rewrite <- (left_id_L ∅ (∪) obj) at 1. rewrite setKey_union.
  rewrite (Hall k v) by by left. rewrite IH; [done|].
  intros k' v' Hin. apply Hall. by right.
Qed.

Lemma write_key_swap st m x y :
  (∀ f, f ∈ keyFields dejsonify x.1 x.2 → f ∉ keyFields dejsonify y.1 y.2) →
  write_key dejsonify st (write_key dejsonify st m x) y = write_key dejsonify st (write_key dejsonify st m y) x.
Proof.
  intros Hdisj. unfold write_key. rewrite !(assoc_L (∪)). f_equal.
  apply map_union_comm, map_disjoint_alt. intros f.
  destruct (decide (f ∈ keyFields dejsonify y.1 y.2)) as [Hy|Hy].
  - right. rewrite setKey_other_fields; [done|]. naive_solver.
  - left. by rewrite setKey_other_fields.
Qed.

Lemma foldl_write_key_permutation st attributes attributes' :
  attributes ≡ₚ attributes' →
  NoDup (recordFields dejsonify attributes) →
  ∀ obj, foldl (write_key dejsonify st) obj attributes'
         = foldl (write_key dejsonify st) obj attributes.
Proof.
  induction 1 as [|x l l' Hperm IH|x y l|l l' l'' Hperm IH Hperm' IH'];
    intros Hnodup obj; simpl.
  - done.
  - apply IH. unfold recordFields in Hnodup. rewrite bind_cons in Hnodup.
    by apply NoDup_app in Hnodup as (_ & _ & ?).
  - f_equal. apply write_key_swap.
    unfold recordFields in Hnodup. rewrite !bind_cons in Hnodup.
    apply NoDup_app in Hnodup as (_ & Hyx & _).
    intros f Hx Hy. apply (Hyx f Hy). apply elem_of_app. by left.
  - rewrite IH'; [by apply IH|].
    unfold recordFields in *. by rewrite <- Hperm.
Qed.

Lemma assoc_elem {A} k (m : list (string * A)) v :
  assoc k m = Some v → (k, v) ∈ m.
Proof.
  induction m as [|[k' v'] rest IH]; simpl; [done|].
  case_decide as Hk; [intros [= ->]; subst; by left|].
  intros ?%IH. by right.
Qed.

Lemma assoc_id_unique attributes v :
  NoDup (recordFields dejsonify attributes) →
  ("id", v) ∈ attributes →
  assoc "id" attributes = Some v.
Proof.
  induction attributes as [|[k0 v0] rest IH]; intros Hnodup Hin;
    [by apply elem_of_nil in Hin|].
  unfold recordFields in Hnodup. rewrite bind_cons in Hnodup.
  apply NoDup_app in Hnodup as (_ & Hdisj & Hrest). simpl.
  apply elem_of_cons in Hin as [[= <- <-]|Hin]; [by rewrite decide_True|].
  case_decide as Hk; [|by apply IH].
  subst k0. exfalso. apply (Hdisj "ID").
  - unfold keyFields. simpl. by left.
  - apply list_elem_of_bind. exists ("id", v). split; [|done].
    unfold keyFields. simpl. by left.
Qed.

Lemma assoc_id_permutation attributes attributes' :
  attributes ≡ₚ attributes' →
  NoDup (recordFields dejsonify attributes) →
  assoc "id" attributes' = assoc "id" attributes.
Proof.
  intros Hperm Hnodup.
  assert (NoDup (recordFields dejsonify attributes')) as Hnodup'
    by (unfold recordFields in *; by rewrite <- Hperm).
  destruct (assoc "id" attributes) as [v|] eqn:Hid.
  - apply assoc_id_unique; [done|]. rewrite <- Hperm. by apply assoc_elem.
  - destruct (assoc "id" attributes') as [v'|] eqn:Hid'; [|done].
    apply assoc_elem in Hid'. rewrite <- Hperm in Hid'.
    apply (assoc_id_unique _ _ Hnodup) in Hid'. congruence.
Qed.

Lemma setKeys_permutation st obj attributes attributes' :
  attributes ≡ₚ attributes' →
  NoDup (recordFields dejsonify attributes) →
  (setKeys dejsonify st obj attributes).2 = Ok tt →
  setKeys dejsonify st obj attributes' = setKeys dejsonify st obj attributes.
Proof.
  intros Hperm Hnodup Hok.
  pose proof (setKeys_ok_keys _ _ _ Hok) as Hkeys.
  rewrite !setKeys_all_ok; [| done |].
  - f_equal. by apply foldl_write_key_permutation.
  - intros k v Hin. apply Hkeys. by rewrite Hperm.
Qed.

Lemma unmarshalRecord_permutation st rootName attributes attributes' h s h' s' :
  attributes ≡ₚ attributes' →
  NoDup (recordFields dejsonify attributes) →
  unmarshalRecord dejsonify growcap st rootName (GMap attributes) h s
    = (h', Ok s') →
  unmarshalRecord dejsonify growcap st rootName (GMap attributes') h s
    = (h', Ok s').
Proof.
  intros Hperm Hnodup. unfold unmarshalRecord, lookupID.
  rewrite (assoc_id_permutation _ _ Hperm Hnodup).
  set (found := match assoc "id" attributes with
                | Some GNil | None => Ok None
                | Some (GString id) => findByID st id (elems h s) 0
                | Some _ => Err "id must be a string"
                end).
  destruct found as [[i|]|e|p]; try done.
  - destruct (setKeys dejsonify st _ attributes) as [val r] eqn:Hset.
    destruct r as [[]|e|p]; try done.
    rewrite (setKeys_permutation _ _ _ _ Hperm Hnodup), Hset; [done|].
    by rewrite Hset.
  - destruct (setKeys dejsonify st _ attributes) as [val r] eqn:Hset.
    destruct r as [[]|e|p]; try done.
    rewrite (setKeys_permutation _ _ _ _ Hperm Hnodup), Hset; [done|].
    by rewrite Hset.
Qed.

(** X11: Go visits the keys of a map in no fixed order.  When the keys of
    every record are written to pairwise different fields and the document
    is accepted with its keys visited in one order, it is accepted with the
    same result in every other order. *)
Theorem visiting_order_is_irrelevant ctx ctx' st models models' w w' :
  Kind st = KStruct →
  ctx !! pluralize (jsonify (Name st)) = Some (GSlice models) →
  ctx' !! pluralize (jsonify (Name st)) = Some (GSlice models') →
  Forall2 (λ m m', ∃ attributes attributes',
             m = GMap attributes ∧ m' = GMap attributes' ∧
             attributes ≡ₚ attributes' ∧
             NoDup (recordFields dejsonify attributes)) models models' →
  Unmarshal pluralize jsonify dejsonify growcap ctx
    (ArgOf (TPtr (TSlice st)) false) w = (w', Ok tt) →
  Unmarshal pluralize jsonify dejsonify growcap ctx'
    (ArgOf (TPtr (TSlice st)) false) w = (w', Ok tt).
Proof.
  intros Hk Hroot Hroot' Hall. rewrite !Unmarshal_accepted by done.
  unfold unmarshalInto. rewrite Hroot, Hroot'.
  assert (∀ h s h' s',
            unmarshalRecords dejsonify growcap st
              (pluralize (jsonify (Name st))) models h s = (h', Ok s') →
            unmarshalRecords dejsonify growcap st
              (pluralize (jsonify (Name st))) models' h s = (h', Ok s'))
    as Hsame.
  { clear Hroot Hroot'.
    induction Hall as [|m m' rest rest'
        (attributes & attributes' & -> & -> & Hperm & Hnodup) _ IH];
      intros h s h' s'; [done|].
    rewrite !unmarshalRecords_cons.
    destruct (unmarshalRecord _ _ _ _ (GMap attributes) h s)
      as [h1 r1] eqn:Hstep.
    destruct r1 as [s1| |]; try done.
    rewrite (unmarshalRecord_permutation _ _ _ _ _ _ _ _ Hperm Hnodup Hstep).
    apply IH. }
  destruct (unmarshalRecords _ _ _ _ models (heap w) (dest w))
    as [h r] eqn:Hrun.
  destruct r as [s| |]; try done. intros [= <-].
  by rewrite (Hsame _ _ _ _ Hrun).
Qed.


(** *** Two records for one new identifier *)

(** X12: the scan for the identifier runs over the working slice, which
    holds what earlier records of the same document appended.  Two records
    with the same "id", that no element of the destination has, therefore
    add one element: the struct the first is appended as, with the second
    written into it. *)
Theorem same_new_id_appends_once ctx st a1 a2 id w :
  Kind st = KStruct →
  wf_world w →
  ctx !! pluralize (jsonify (Name st)) = Some (GSlice [GMap a1; GMap a2]) →
  assoc "id" a1 = Some (GString id) →
  assoc "id" a2 = Some (GString id) →
  (∀ o, o ∈ dest_elems w → other_id st id o) →
  (setKeys dejsonify st (New st) a1).2 = Ok tt →
  idFromObject st (populate dejsonify st (GMap a1)) = Ok id →
  (setKeys dejsonify st (populate dejsonify st (GMap a1)) a2).2 = Ok tt →
  ∃ w',
    Unmarshal pluralize jsonify dejsonify growcap ctx
      (ArgOf (TPtr (TSlice st)) false) w = (w', Ok tt) ∧
    dest_elems w'
    = dest_elems w
      ++ [(setKeys dejsonify st (populate dejsonify st (GMap a1)) a2).1].
Proof.
  intros Hk Hwf Hroot Hid1 Hid2 Hnew Hok1 Hread Hok2. unfold populate in *.
  assert (mergeRecords dejsonify st (pluralize (jsonify (Name st)))
            [GMap a1; GMap a2] (dest_elems w)
          = (dest_elems w ++ [(setKeys dejsonify st
                                 (setKeys dejsonify st (New st) a1).1 a2).1],
             Ok tt)) as Hmerge.
  { simpl. unfold lookupID. rewrite Hid1, Hid2.
    rewrite (findByID_none st id _ 0 Hnew).
    destruct (setKeys dejsonify st (New st) a1) as [p1 r1]. simpl in *.
    subst r1.
    rewrite (findByID_app_none st id _ _ 0 (findByID_none st id _ 0 Hnew)).
    simpl. rewrite Hread, decide_True by done.
    rewrite lookup_app_r, Nat.sub_diag by done. simpl.
    destruct (setKeys dejsonify st p1 a2) as [v2 r2]. simpl in *. subst r2.
    replace (length (dest_elems w)) with (length (dest_elems w) + 0) by lia.
    by rewrite insert_app_r. }
  rewrite Unmarshal_accepted by done. unfold unmarshalInto. rewrite Hroot.
  destruct (unmarshalRecords _ _ _ _ _ (heap w) (dest w)) as [h r] eqn:Hrun.
  apply unmarshalRecords_elems in Hrun as (s' & _ & Hs' & Hm); [|done].
  fold (dest_elems w) in Hm. rewrite Hmerge in Hm.
  destruct r as [s| |]; try done.
  rewrite <- (Hs' s) in Hm by done. injection Hm as Hm.
  eexists. split; [done|]. unfold dest_elems at 1. simpl. by rewrite <- Hm.
Qed.


(** *** One document or two, and where the loop stops *)

(** X13: the loop returns at the first record that is not accepted, by an
    error or by a panic: what the call does is what it does on the document
    cut after that record. *)
Theorem Unmarshal_stops_at_first_failure ctx st before bad after w w' r :
  Kind st = KStruct →
  ctx !! pluralize (jsonify (Name st)) = Some (GSlice (before ++ bad :: after)) →
  Unmarshal pluralize jsonify dejsonify growcap
    (<[pluralize (jsonify (Name st)) := GSlice (before ++ [bad])]> ctx)
    (ArgOf (TPtr (TSlice st)) false) w = (w', r) →
  r ≠ Ok tt →
  Unmarshal pluralize jsonify dejsonify growcap ctx
    (ArgOf (TPtr (TSlice st)) false) w = (w', r).
Proof.
  intros Hk Hroot. rewrite !Unmarshal_accepted by done. unfold unmarshalInto.
  rewrite Hroot, lookup_insert_eq, !unmarshalRecords_app.
  destruct (unmarshalRecords _ _ _ _ before (heap w) (dest w))
    as [h1 [s1| |]]; try done.
  rewrite !unmarshalRecords_cons.
  destruct (unmarshalRecord _ _ _ _ bad h1 s1) as [h2 [s2| |]]; try done.
  simpl. by intros [= <- <-] [].
Qed.

(** X14: unmarshalling a document whose records are [first ++ second] is
    unmarshalling [first], when that succeeds, and then [second] into the
    result, with one difference: if [second] is not accepted, the single
    call leaves the caller's slice as it was before [first], while memory is
    as the two calls leave it. *)
Theorem Unmarshal_of_two_parts ctx ctx1 ctx2 st first second w w1 w2 r :
  Kind st = KStruct →
  ctx !! pluralize (jsonify (Name st)) = Some (GSlice (first ++ second)) →
  ctx1 !! pluralize (jsonify (Name st)) = Some (GSlice first) →
  ctx2 !! pluralize (jsonify (Name st)) = Some (GSlice second) →
  Unmarshal pluralize jsonify dejsonify growcap ctx1
    (ArgOf (TPtr (TSlice st)) false) w = (w1, Ok tt) →
  Unmarshal pluralize jsonify dejsonify growcap ctx2
    (ArgOf (TPtr (TSlice st)) false) w1 = (w2, r) →
  Unmarshal pluralize jsonify dejsonify growcap ctx
    (ArgOf (TPtr (TSlice st)) false) w
  = (World (heap w2) (match r with Ok _ => dest w2 | _ => dest w end), r).
Proof.
  intros Hk Hroot Hroot1 Hroot2. rewrite !Unmarshal_accepted by done.
  unfold unmarshalInto. rewrite Hroot, Hroot1, Hroot2, unmarshalRecords_app.
  destruct (unmarshalRecords _ _ _ _ first (heap w) (dest w))
    as [h1 [s1| |]]; try done.
  intros [= <-]. simpl.
  destruct (unmarshalRecords _ _ _ _ second h1 s1) as [h2 [s2| |]];
    by intros [= <- <-].
Qed.


(** ** What an accepted record leaves in the struct *)










(** ** One record, the keys it has and the errors they raise *)







(** *** An error part of the way through a document *)






End Properties.

(** * The statements at concrete posts *)

Lemma wf_no_posts : wf_world no_posts.
Proof. by split. Defined.

Lemma wf_one_post : wf_world one_post.
Proof. by split. Defined.


(** The record for "42" at [one_post], evaluated: element 0 has the new
    title and its other fields, and the slice is the one it was. *)
Lemma retitle42_at_one_post :
  UnmarshalRecordPosts retitle42 (heap one_post) (dest one_post)
  = ([<["Title" := GString "new"]> (mkPost "42" "old" ["1"; "2"])],
     Ok (dest one_post)).
Proof. vm_compute. reflexivity. Qed.

(** C2 at [one_post]. *)
Lemma C2_witness :
  ∃ w' e',
    UnmarshalPosts (doc [retitle42]) argPosts one_post = (w', Ok tt) ∧
    dest_elems w' = [e'] ∧
    e' !! "Title" = Some (GString "new") ∧
    idFromObject Post e' = Ok "42" ∧
    ∀ f, f ≠ "Title" → f ≠ "ID" →
         e' !! f = mkPost "42" "old" ["1"; "2"] !! f.
Proof.
  apply (C2_merge_by_identifier pluralize_s jsonify_lower dejsonify_upper
           growcap_double (doc [retitle42]) Post one_post
           (mkPost "42" "old" ["1"; "2"]) "title" (GString "new") TString
           [("id", GString "42"); ("title", GString "new")]);
    first [reflexivity | apply wf_one_post | by left | done].
Defined.



(** The call above, evaluated: the caller's slice has the one element it
    had, with the title that was merged after the append; the record that
    was appended lies in the spare capacity, outside the slice. *)
Lemma merge_after_append_survives_error :
  UnmarshalPosts (doc [untitled; retitle42; bogus]) argPosts shared_memory
  = (World [mkPost "1" "above" [];
            <["Title" := GString "new"]> (mkPost "42" "old" ["1"; "2"]);
            <["Title" := GString "a"]> (New Post);
            mkPost "2" "below" []]
       (dest shared_memory),
     Err "expected struct Post to have field Bogus") ∧
  dest_elems
    (UnmarshalPosts (doc [untitled; retitle42; bogus]) argPosts
       shared_memory).1
  = [<["Title" := GString "new"]> (mkPost "42" "old" ["1"; "2"])].
Proof. vm_compute. done. Qed.

(** C5 at [no_posts]: two records for the same new identifier. *)
Lemma C5_witness :
  ∃ w2,
    UnmarshalPosts
      (doc [GMap [("id", GString "7"); ("title", GString "a")];
            GMap [("title", GString "b"); ("id", GString "7")]])
      argPosts
      (UnmarshalPosts
         (doc [GMap [("id", GString "7"); ("title", GString "a")];
               GMap [("title", GString "b"); ("id", GString "7")]])
         argPosts no_posts).1
    = (w2, Ok tt) ∧
    dest_elems w2
    = [<["ID" := GString "7"]> (<["Title" := GString "b"]> (New Post))].
Proof.
  destruct (C5_second_unmarshal_changes_nothing pluralize_s jsonify_lower
              dejsonify_upper growcap_double
              (doc [GMap [("id", GString "7"); ("title", GString "a")];
                    GMap [("title", GString "b"); ("id", GString "7")]])
              Post
              [GMap [("id", GString "7"); ("title", GString "a")];
               GMap [("title", GString "b"); ("id", GString "7")]]
              no_posts
              (UnmarshalPosts
                 (doc [GMap [("id", GString "7"); ("title", GString "a")];
                       GMap [("title", GString "b"); ("id", GString "7")]])
                 argPosts no_posts).1)
    as (w2 & Hw2 & Helems).
  - reflexivity.
  - apply wf_no_posts.
  - reflexivity.
  - constructor; [|constructor; [|constructor]];
      apply (stable_id_intro dejsonify_upper Post _ "7" (GString "7"));
      vm_compute; reflexivity.
  - reflexivity.
  - exists w2. split; [exact Hw2|]. rewrite Helems. vm_compute. reflexivity.
Defined.


(** C7 at [one_post], with an empty document. *)
Lemma C7_witness :
  UnmarshalPosts ∅ argPosts one_post
  = (one_post,
     Err "expected root document to include a 'posts' key but it didn't.").
Proof.
  apply (C7_missing_root_key pluralize_s jsonify_lower dejsonify_upper
           growcap_double ∅ Post one_post); reflexivity.
Defined.


(** C10 at [one_post]: the first record is merged, the second is appended
    to the working copy, the third is refused. *)
Lemma C10_witness :
  dest (UnmarshalPosts (doc [retitle42; untitled; bogus]) argPosts one_post).1
  = dest one_post ∧
  length (dest_elems
    (UnmarshalPosts (doc [retitle42; untitled; bogus]) argPosts one_post).1)
  = length (dest_elems one_post).
Proof.
  apply (C10_error_keeps_length pluralize_s jsonify_lower dejsonify_upper
           growcap_double (doc [retitle42; untitled; bogus]) argPosts one_post
           _ "expected struct Post to have field Bogus").
  - apply wf_one_post.
  - vm_compute. reflexivity.
Defined.

(** An update in place made before the error stays: after the call above
    the title of post "42" is the new one. *)
Lemma in_place_update_survives_error :
  (UnmarshalPosts (doc [retitle42; untitled; bogus]) argPosts one_post).2
  = Err "expected struct Post to have field Bogus" ∧
  (dest_elems one_post !! 0 ≫= (.!! "Title")) = Some (GString "old") ∧
  (dest_elems
     (UnmarshalPosts (doc [retitle42; untitled; bogus]) argPosts one_post).1
     !! 0 ≫= (.!! "Title")) = Some (GString "new").
Proof. vm_compute. done. Qed.

(** * Where the specification and the code part *)




(** C5 fails on the code: a record without "id" is appended by each of two
    successful calls. *)
Lemma C5_record_without_id_is_appended_twice :
  ¬ (∀ ctx w,
       dest_elems
         (UnmarshalPosts ctx argPosts (UnmarshalPosts ctx argPosts w).1).1
       = dest_elems (UnmarshalPosts ctx argPosts w).1).
Proof.
  intros Hsame. specialize (Hsame (doc [untitled]) no_posts).
  apply (f_equal length) in Hsame. vm_compute in Hsame. discriminate.
Qed.

(** C8 fails on the code: the argument is a pointer to a slice of structs
    and is accepted, the document gives a number for the title, a string
    field, and [Unmarshal] panics in the assignment of line 115 where every
    other fault of the data is a returned error. *)
Lemma C8_accepted_argument_panics :
  struct_slice_pointer argPosts = true ∧
  (UnmarshalPosts (doc [GMap [("title", GFloat 5)]]) argPosts one_post).2
  = Panic (AbortReflect "Set").
Proof. vm_compute. done. Qed.


(** * The further properties at concrete posts *)

Lemma wf_shared_memory : wf_world shared_memory.
Proof. split; simpl; lia. Defined.

Lemma Unmarshal_keeps_slice_in_memory_witness :
  wf_world (UnmarshalPosts (doc [retitle42; untitled; untitled]) argPosts
              shared_memory).1 ∧
  length (heap shared_memory)
  ≤ length (heap (UnmarshalPosts (doc [retitle42; untitled; untitled])
                    argPosts shared_memory).1).
Proof.
  apply (Unmarshal_keeps_slice_in_memory pluralize_s jsonify_lower
           dejsonify_upper growcap_double
           (doc [retitle42; untitled; untitled]) argPosts shared_memory _
           (Ok tt)).
  - apply wf_shared_memory.
  - vm_compute. reflexivity.
Defined.

Lemma Unmarshal_root_not_an_array_witness :
  UnmarshalPosts {["posts" := GString "none"]} argPosts one_post
  = (one_post, Err "expected slice under key 'posts'").
Proof.
  etrans.
  - apply (Unmarshal_root_not_an_array pluralize_s jsonify_lower
             dejsonify_upper growcap_double {["posts" := GString "none"]}
             Post one_post).
    + reflexivity.
    + intros models. vm_compute. discriminate.
  - vm_compute. reflexivity.
Defined.

Lemma Unmarshal_length_bounds_witness :
  length (dest_elems one_post)
  ≤ length (dest_elems
      (UnmarshalPosts (doc [retitle42; untitled]) argPosts one_post).1) ∧
  length (dest_elems
      (UnmarshalPosts (doc [retitle42; untitled]) argPosts one_post).1)
  ≤ length (dest_elems one_post) + length [retitle42; untitled].
Proof.
  apply (Unmarshal_length_bounds pluralize_s jsonify_lower dejsonify_upper
           growcap_double (doc [retitle42; untitled]) Post
           [retitle42; untitled] one_post).
  - reflexivity.
  - apply wf_one_post.
  - vm_compute. reflexivity.
  - vm_compute. reflexivity.
Defined.

Lemma records_without_id_are_appended_in_order_witness :
  dest_elems
    (UnmarshalPosts (doc [untitled; GMap [("title", GString "b")]]) argPosts
       one_post).1
  = dest_elems one_post
    ++ [<["Title" := GString "a"]> (New Post);
        <["Title" := GString "b"]> (New Post)].
Proof.
  apply (records_without_id_are_appended_in_order pluralize_s jsonify_lower
           dejsonify_upper growcap_double
           (doc [untitled; GMap [("title", GString "b")]]) Post
           [untitled; GMap [("title", GString "b")]] one_post).
  - reflexivity.
  - apply wf_one_post.
  - vm_compute. reflexivity.
  - constructor; [|constructor; [|constructor]]; eexists; split; reflexivity.
  - vm_compute. reflexivity.
Defined.

Lemma Unmarshal_writes_only_backing_array_witness :
  heap (UnmarshalPosts (doc [retitle42; untitled; untitled]) argPosts
          shared_memory).1 !! 3
  = heap shared_memory !! 3.
Proof.
  apply (Unmarshal_writes_only_backing_array pluralize_s jsonify_lower
           dejsonify_upper growcap_double
           (doc [retitle42; untitled; untitled]) argPosts shared_memory _
           (Ok tt) 3).
  - apply wf_shared_memory.
  - simpl. lia.
  - vm_compute. reflexivity.
  - simpl. lia.
  - right. simpl. lia.
Defined.

Lemma Unmarshal_after_reallocation_witness :
  (∀ a, a < length (heap one_post) →
        heap (UnmarshalPosts (doc [untitled; retitle42; bogus]) argPosts
                one_post).1 !! a
        = heap one_post !! a) ∧
  (Err "expected struct Post to have field Bogus" ≠ Ok tt →
   dest_elems (UnmarshalPosts (doc [untitled; retitle42; bogus]) argPosts
                 one_post).1
   = dest_elems one_post).
Proof.
  apply (Unmarshal_after_reallocation pluralize_s jsonify_lower
           dejsonify_upper growcap_double
           (doc [untitled; retitle42; bogus]) Post
           [("title", GString "a")] [retitle42; bogus] one_post).
  - reflexivity.
  - apply wf_one_post.
  - simpl. lia.
  - vm_compute. reflexivity.
  - vm_compute. reflexivity.
  - vm_compute. reflexivity.
Defined.

Lemma Unmarshal_keeps_unnamed_fields_witness :
  ∃ obj' : struct_val,
    dest_elems (UnmarshalPosts (doc [retitle42; untitled]) argPosts one_post).1
      !! 0 = Some obj' ∧
    ∀ f, f ∉ documentFields dejsonify_upper [retitle42; untitled] →
         obj' !! f = mkPost "42" "old" ["1"; "2"] !! f.
Proof.
  apply (Unmarshal_keeps_unnamed_fields pluralize_s jsonify_lower
           dejsonify_upper growcap_double (doc [retitle42; untitled]) Post
           [retitle42; untitled] one_post).
  - reflexivity.
  - apply wf_one_post.
  - vm_compute. reflexivity.
  - vm_compute. reflexivity.
  - vm_compute. reflexivity.
Defined.

Lemma unmarshalLinks_refuses_entry_witness :
  unmarshalLinks dejsonify_upper Post (mkPost "42" "old" ["1"; "2"])
    ([("author", GString "7")] ++ [("tags", GSlice [GString "3"])])
  = ((unmarshalLinks dejsonify_upper Post (mkPost "42" "old" ["1"; "2"])
        [("author", GString "7")]).1,
     Err "expected struct to have a TagsIDs slice").
Proof.
  apply (unmarshalLinks_refuses_entry dejsonify_upper Post
           (mkPost "42" "old" ["1"; "2"]) [("author", GString "7")]
           "tags" (GSlice [GString "3"]) []).
  - vm_compute. reflexivity.
  - intros et. vm_compute. discriminate.
Defined.

Lemma accepted_document_shape_witness :
  ∃ attributes,
    retitle42 = GMap attributes ∧
    ∀ k v, (k, v) ∈ attributes → keyShape dejsonify_upper Post k v.
Proof.
  apply (accepted_document_shape pluralize_s jsonify_lower dejsonify_upper
           growcap_double (doc [retitle42; untitled]) Post
           [retitle42; untitled] one_post
           (UnmarshalPosts (doc [retitle42; untitled]) argPosts one_post).1).
  - reflexivity.
  - vm_compute. reflexivity.
  - vm_compute. reflexivity.
  - by left.
Defined.

Lemma visiting_order_is_irrelevant_witness :
  UnmarshalPosts
    (doc [GMap [("title", GString "new"); ("id", GString "42")]])
    argPosts one_post
  = ((UnmarshalPosts (doc [retitle42]) argPosts one_post).1, Ok tt).
Proof.
  apply (visiting_order_is_irrelevant pluralize_s jsonify_lower
           dejsonify_upper growcap_double (doc [retitle42])
           (doc [GMap [("title", GString "new"); ("id", GString "42")]])
           Post [retitle42]
           [GMap [("title", GString "new"); ("id", GString "42")]] one_post).
  - reflexivity.
  - vm_compute. reflexivity.
  - vm_compute. reflexivity.
  - constructor; [|constructor].
    exists [("id", GString "42"); ("title", GString "new")],
           [("title", GString "new"); ("id", GString "42")].
    split_and!; [reflexivity|reflexivity|apply perm_swap|].
    apply (bool_decide_unpack _). vm_compute. reflexivity.
  - vm_compute. reflexivity.
Defined.

Lemma same_new_id_appends_once_witness :
  ∃ w',
    UnmarshalPosts
      (doc [GMap [("id", GString "7"); ("title", GString "a")];
            GMap [("title", GString "b"); ("id", GString "7")]])
      argPosts one_post = (w', Ok tt) ∧
    dest_elems w'
    = dest_elems one_post
      ++ [(setKeys dejsonify_upper Post
             (populate dejsonify_upper Post
                (GMap [("id", GString "7"); ("title", GString "a")]))
             [("title", GString "b"); ("id", GString "7")]).1].
Proof.
  apply (same_new_id_appends_once pluralize_s jsonify_lower dejsonify_upper
           growcap_double
           (doc [GMap [("id", GString "7"); ("title", GString "a")];
                 GMap [("title", GString "b"); ("id", GString "7")]])
           Post [("id", GString "7"); ("title", GString "a")]
           [("title", GString "b"); ("id", GString "7")] "7" one_post).
  - reflexivity.
  - apply wf_one_post.
  - vm_compute. reflexivity.
  - reflexivity.
  - vm_compute. reflexivity.
  - intros o [->|Hin]%elem_of_cons; [|by apply elem_of_nil in Hin].
    exists "42". split; [vm_compute; reflexivity|discriminate].
  - vm_compute. reflexivity.
  - vm_compute. reflexivity.
  - vm_compute. reflexivity.
Defined.

Lemma Unmarshal_stops_at_first_failure_witness :
  UnmarshalPosts (doc [retitle42; GMap [("title", GFloat 5)]; untitled])
    argPosts one_post
  = (World [<["Title" := GString "new"]> (mkPost "42" "old" ["1"; "2"])]
       (dest one_post),
     Panic (AbortReflect "Set")).
Proof.
  apply (Unmarshal_stops_at_first_failure pluralize_s jsonify_lower
           dejsonify_upper growcap_double
           (doc [retitle42; GMap [("title", GFloat 5)]; untitled]) Post
           [retitle42] (GMap [("title", GFloat 5)]) [untitled] one_post).
  - reflexivity.
  - vm_compute. reflexivity.
  - vm_compute. reflexivity.
  - discriminate.
Defined.

Lemma Unmarshal_of_two_parts_witness :
  UnmarshalPosts (doc ([untitled] ++ [retitle42; bogus])) argPosts one_post
  = (World
       (heap (UnmarshalPosts (doc [retitle42; bogus]) argPosts
                (UnmarshalPosts (doc [untitled]) argPosts one_post).1).1)
       (dest one_post),
     Err "expected struct Post to have field Bogus").
Proof.
  apply (Unmarshal_of_two_parts pluralize_s jsonify_lower dejsonify_upper
           growcap_double (doc ([untitled] ++ [retitle42; bogus]))
           (doc [untitled]) (doc [retitle42; bogus]) Post
           [untitled] [retitle42; bogus] one_post
           (UnmarshalPosts (doc [untitled]) argPosts one_post).1
           (UnmarshalPosts (doc [retitle42; bogus]) argPosts
              (UnmarshalPosts (doc [untitled]) argPosts one_post).1).1
           (Err "expected struct Post to have field Bogus")).
  - reflexivity.
  - vm_compute. reflexivity.
  - vm_compute. reflexivity.
  - vm_compute. reflexivity.
  - vm_compute. reflexivity.
  - vm_compute. reflexivity.
Defined.

(** The decoder refuses the one byte of an opening brace, and its error
    comes back though the argument is nil; the empty object is decoded and
    [Unmarshal] misses the root key. *)
Lemma UnmarshalFromJSON_error_witness :
  UnmarshalFromJSON pluralize_s jsonify_lower dejsonify_upper growcap_double
    sample_decoder [Byte.x7b] ArgNil one_post
  = (one_post, Err "unexpected end of JSON input")
  ∧
  UnmarshalFromJSON pluralize_s jsonify_lower dejsonify_upper growcap_double
    sample_decoder [Byte.x7b; Byte.x7d] argPosts one_post
  = UnmarshalPosts ∅ argPosts one_post
  ∧
  dest (UnmarshalFromJSON pluralize_s jsonify_lower dejsonify_upper
          growcap_double sample_decoder [Byte.x7b; Byte.x7d] argPosts
          one_post).1
  = dest one_post
  ∧
  length (dest_elems
    (UnmarshalFromJSON pluralize_s jsonify_lower dejsonify_upper
       growcap_double sample_decoder [Byte.x7b; Byte.x7d] argPosts
       one_post).1)
  = length (dest_elems one_post).
Proof.
  split; [|split].
  - apply (proj1 (UnmarshalFromJSON_error pluralize_s jsonify_lower
             dejsonify_upper growcap_double sample_decoder [Byte.x7b] ArgNil
             one_post)).
    reflexivity.
  - apply (proj1 (proj2 (UnmarshalFromJSON_error pluralize_s jsonify_lower
             dejsonify_upper growcap_double sample_decoder
             [Byte.x7b; Byte.x7d] argPosts one_post))).
    reflexivity.
  - apply (proj2 (proj2 (UnmarshalFromJSON_error pluralize_s jsonify_lower
             dejsonify_upper growcap_double sample_decoder
             [Byte.x7b; Byte.x7d] argPosts one_post))
             (UnmarshalFromJSON pluralize_s jsonify_lower dejsonify_upper
                growcap_double sample_decoder [Byte.x7b; Byte.x7d] argPosts
                one_post).1
             "expected root document to include a 'posts' key but it didn't.").
    + apply wf_one_post.
    + vm_compute. reflexivity.
Defined.
